(** * The newspaper template renderer of [newspaper/build.js]

    A shallow embedding of [render] and [getNestedValue], the two functions
    of the build script that carry the template semantics, together with the
    parts of the JavaScript runtime they lean on: global [String.replace]
    with the three regular expressions of the script, replacement patterns,
    property access on JSON data, truthiness and string conversion.

    Scope of the data model.  Contexts are the values [JSON.parse] produces.
    - Strings are sequences of UTF-16 code units, here [list N].
    - Numbers are the integer-valued ones, here [Z]; their text is the
      decimal form JavaScript prints for magnitudes below 10^21.
    - Property access covers the own properties of the data: the fields of
      an object, the indices and [length] of an array, the indices and
      [length] of a string.  Properties that a value inherits from the
      built-in prototypes (methods such as [toString]) are not data and
      are outside the model; statements below speak of lookups through
      their result, found or not found. *)

From Stdlib Require Import List ZArith NArith Lia Bool Ascii DecimalString.
From Stdlib Require String DecimalPos.
Import ListNotations String.StringSyntax.

Local Open Scope string_scope.
Local Open Scope list_scope.

Set Warnings "-register-all".

(** ** Strings *)

Definition str := list N.

Definition lit (s : String.string) : str :=
  map N_of_ascii (String.list_ascii_of_string s).

Definition str_eqb (a b : str) : bool :=
  if list_eq_dec N.eq_dec a b then true else false.

Fixpoint starts_with (p s : str) : bool :=
  match p, s with
  | [], _ => true
  | _ :: _, [] => false
  | a :: p', b :: s' => N.eqb a b && starts_with p' s'
  end.

(** [strip p s] is the rest of [s] after the prefix [p], when [s] has it. *)
Fixpoint strip (p s : str) : option str :=
  match p, s with
  | [], _ => Some s
  | _ :: _, [] => None
  | a :: p', b :: s' => if N.eqb a b then strip p' s' else None
  end.

(** Text before the first occurrence of [needle] in [hay]. *)
Fixpoint find_sub (needle hay : str) : option str :=
  if starts_with needle hay then Some []
  else match hay with
       | [] => None
       | c :: rest =>
           match find_sub needle rest with
           | Some before => Some (c :: before)
           | None => None
           end
       end.

(** [Array.prototype.join] on strings. *)
Fixpoint join (sep : str) (parts : list str) : str :=
  match parts with
  | [] => []
  | [p] => p
  | p :: rest => p ++ sep ++ join sep rest
  end.

(** [String.prototype.split] with a one-character separator. *)
Fixpoint split_on (sep : N) (s : str) : list str :=
  match s with
  | [] => [[]]
  | c :: rest =>
      if N.eqb c sep then [] :: split_on sep rest
      else match split_on sep rest with
           | h :: t => (c :: h) :: t
           | [] => [[c]]
           end
  end.

(** The class [\s] of JavaScript regular expressions (white space and line
    terminators), on code units. *)
Definition is_space (c : N) : bool :=
  (N.leb 9 c && N.leb c 13)
  || N.eqb c 32 || N.eqb c 160 || N.eqb c 5760
  || (N.leb 8192 c && N.leb c 8202)
  || N.eqb c 8232 || N.eqb c 8233 || N.eqb c 8239 || N.eqb c 8287
  || N.eqb c 12288 || N.eqb c 65279.

(** ** Outcomes

    A call either returns, throws a [TypeError], or, in the fuelled
    definition of [render], runs out of fuel. *)

Inductive outcome (A : Type) : Type :=
| Done (a : A)
| TypeError
| OutOfFuel.

Arguments Done {A} a.
Arguments TypeError {A}.
Arguments OutOfFuel {A}.

Definition bind {A B : Type} (m : outcome A) (f : A -> outcome B) : outcome B :=
  match m with
  | Done a => f a
  | TypeError => TypeError
  | OutOfFuel => OutOfFuel
  end.

Notation "x <- m ;; k" := (bind m (fun x => k))
  (at level 61, m at next level, right associativity).

Fixpoint mapM {A B : Type} (f : A -> outcome B) (l : list A) : outcome (list B) :=
  match l with
  | [] => Done []
  | a :: rest =>
      b <- f a ;;
      bs <- mapM f rest ;;
      Done (b :: bs)
  end.

(** ** Values *)

Inductive value : Type :=
| VUndefined
| VNull
| VBool (b : bool)
| VNum (z : Z)
| VStr (s : str)
| VArr (items : list value)
| VObj (fields : list (str * value)).

Definition is_undefined (v : value) : bool :=
  match v with VUndefined => true | _ => false end.

(** ToBoolean. *)
Definition truthy (v : value) : bool :=
  match v with
  | VUndefined | VNull => false
  | VBool b => b
  | VNum z => negb (Z.eqb z 0)
  | VStr s => match s with [] => false | _ => true end
  | VArr _ | VObj _ => true
  end.

Fixpoint assoc (key : str) (fields : list (str * value)) : option value :=
  match fields with
  | [] => None
  | (k, v) :: rest => if str_eqb k key then Some v else assoc key rest
  end.

Definition num_text (z : Z) : str :=
  lit (NilZero.string_of_int (Z.to_int z)).

Definition digit (c : N) : bool := N.leb 48 c && N.leb c 57.

(** An array index: the canonical decimal form of a natural number. *)
Definition index_of_key (key : str) : option nat :=
  match key with
  | [] => None
  | c :: rest =>
      if forallb digit key && (negb (N.eqb c 48) || match rest with [] => true | _ => false end)
      then Some (N.to_nat (fold_left (fun acc d => (acc * 10 + (d - 48))%N) key 0%N))
      else None
  end.

(** [v[key]] on the data: own properties only. *)
Definition get_prop (v : value) (key : str) : value :=
  match v with
  | VObj fields =>
      match assoc key fields with
      | Some x => x
      | None => VUndefined
      end
  | VArr items =>
      if str_eqb key (lit "length") then VNum (Z.of_nat (length items))
      else match index_of_key key with
           | Some i => nth i items VUndefined
           | None => VUndefined
           end
  | VStr s =>
      if str_eqb key (lit "length") then VNum (Z.of_nat (length s))
      else match index_of_key key with
           | Some i =>
               match nth_error s i with
               | Some c => VStr [c]
               | None => VUndefined
               end
           | None => VUndefined
           end
  | _ => VUndefined
  end.

Definition has_field (key : str) (fields : list (str * value)) : bool :=
  match assoc key fields with Some _ => true | None => false end.

(** ToString.  An object whose own field shadows [toString] has no callable
    conversion left and the conversion throws. *)
Fixpoint to_text (v : value) : outcome str :=
  match v with
  | VUndefined => Done (lit "undefined")
  | VNull => Done (lit "null")
  | VBool true => Done (lit "true")
  | VBool false => Done (lit "false")
  | VNum z => Done (num_text z)
  | VStr s => Done s
  | VArr items =>
      parts <- (fix elems (l : list value) : outcome (list str) :=
                  match l with
                  | [] => Done []
                  | x :: rest =>
                      p <- match x with
                           | VUndefined | VNull => Done []
                           | _ => to_text x
                           end ;;
                      ps <- elems rest ;;
                      Done (p :: ps)
                  end) items ;;
      Done (join (lit ",") parts)
  | VObj fields =>
      if has_field (lit "toString") fields then TypeError
      else Done (lit "[object Object]")
  end.

(** Induction on values, through the lists of arrays and objects. *)
Section ValueInd.
Variable P : value -> Prop.
Hypothesis P_undefined : P VUndefined.
Hypothesis P_null : P VNull.
Hypothesis P_bool : forall b, P (VBool b).
Hypothesis P_num : forall z, P (VNum z).
Hypothesis P_str : forall s, P (VStr s).
Hypothesis P_arr : forall items, Forall P items -> P (VArr items).
Hypothesis P_obj :
  forall fields, Forall (fun kv => P (snd kv)) fields -> P (VObj fields).

End ValueInd.

(** ** getNestedValue *)

(** The reducer: [current && current[key] !== undefined ? current[key] :
    undefined]. *)
Definition lookup_step (current : value) (key : str) : value :=
  if truthy current && negb (is_undefined (get_prop current key))
  then get_prop current key
  else VUndefined.

Definition getNestedValue (obj : value) (path : str) : value :=
  fold_left lookup_step (split_on 46 path) obj.

(** ** Global replace

    [replace_global matcher cb s] is [s.replace(re, cb)] for a global
    regular expression: [matcher] tries the expression at the head of a
    suffix of [s] and gives the matched text and the captures; [cb] receives
    the match, the captures and the offset.  Matches are never empty here.
    [skip] counts the characters of the last match still to pass over. *)

Section Replace.
Context {G : Type}.
Variable matcher : str -> option (str * G).
Variable cb : str -> G -> nat -> outcome str.

Fixpoint scan (pos skip : nat) (s : str) : outcome str :=
  match s with
  | [] => Done []
  | c :: rest =>
      match skip with
      | S k => scan (S pos) k rest
      | O =>
          match matcher s with
          | Some (matched, groups) =>
              r <- cb matched groups pos ;;
              t <- scan (S pos) (length matched - 1) rest ;;
              Done (r ++ t)
          | None =>
              t <- scan (S pos) 0 rest ;;
              Done (c :: t)
          end
      end
  end.

Definition replace_global (s : str) : outcome str := scan 0 0 s.
End Replace.

(** ** The three regular expressions *)

(** [\S+?] followed by [}}]: the shortest non-empty run of non-space
    characters after which the closing braces stand. *)
Fixpoint var_key (acc s : str) : option str :=
  match s with
  | [] => None
  | c :: rest =>
      if is_space c then None
      else if starts_with (lit "}}") rest then Some (acc ++ [c])
      else var_key (acc ++ [c]) rest
  end.

(** [/\{\{(\S+?)\}\}/] at the head of [s]: the match and the key. *)
Definition match_var (s : str) : option (str * str) :=
  match strip (lit "{{") s with
  | Some r =>
      match var_key [] r with
      | Some key => Some (lit "{{" ++ key ++ lit "}}", key)
      | None => None
      end
  | None => None
  end.

Definition open_tag (key : str) : str := lit "{{#" ++ key ++ lit "}}".
Definition close_tag (key : str) : str := lit "{{/" ++ key ++ lit "}}".

(** [(\S+?)\}\}([\s\S]*?)\{\{\/\1\}\}] after the opening [{{#]: keys are
    tried shortest first, and for each key the body runs to the first
    closing tag of that key; a key with no closing tag is extended. *)
Fixpoint section_key (acc s : str) : option (str * str) :=
  match s with
  | [] => None
  | c :: rest =>
      if is_space c then None
      else
        let key := acc ++ [c] in
        match strip (lit "}}") rest with
        | Some after =>
            match find_sub (close_tag key) after with
            | Some content => Some (key, content)
            | None => section_key key rest
            end
        | None => section_key key rest
        end
  end.

(** [/\{\{#(\S+?)\}\}([\s\S]*?)\{\{\/\1\}\}/] at the head of [s]: the match,
    the key and the content. *)
Definition match_section (s : str) : option (str * (str * str)) :=
  match strip (lit "{{#") s with
  | Some r =>
      match section_key [] r with
      | Some (key, content) =>
          Some (open_tag key ++ content ++ close_tag key, (key, content))
      | None => None
      end
  | None => None
  end.

Definition self_ref : str := lit "{{.}}".

(** [/\{\{\.\}\}/] at the head of [s]. *)
Definition match_self (s : str) : option (str * unit) :=
  if starts_with self_ref s then Some (self_ref, tt) else None.

(** ** Replacement patterns

    GetSubstitution for an expression without capture groups: [$$] is a
    dollar sign, [$&] the match, [$`] the text before the match, [$'] the
    text after it; any other dollar sign stands for itself. *)
Fixpoint get_substitution (matched before after replacement : str) : str :=
  match replacement with
  | [] => []
  | c :: rest =>
      if N.eqb c 36 then
        match rest with
        | d :: rest' =>
            if N.eqb d 36 then 36%N :: get_substitution matched before after rest'
            else if N.eqb d 38 then matched ++ get_substitution matched before after rest'
            else if N.eqb d 96 then before ++ get_substitution matched before after rest'
            else if N.eqb d 39 then after ++ get_substitution matched before after rest'
            else c :: get_substitution matched before after rest
        | [] => [c]
        end
      else c :: get_substitution matched before after rest
  end.

(** [content.replace(/\{\{\.\}\}/g, item)] with [item] given by its text. *)
Definition replace_self (content item : str) : outcome str :=
  replace_global match_self
    (fun matched _ pos =>
       Done (get_substitution matched (firstn pos content)
               (skipn (pos + length matched) content) item))
    content.

(** ** render *)

Definition newline : str := [10%N].

(** The replacement function of the section pass; [rec] is [render]. *)
Definition section_cb (rec : str -> value -> outcome str) (data : value)
    (key content : str) : outcome str :=
  let value := getNestedValue data key in
  match value with
  | VArr items =>
      parts <- mapM (fun item =>
                       match item with
                       | VStr s => replace_self content s
                       | VNum z => replace_self content (num_text z)
                       | _ => rec content item
                       end) items ;;
      Done (join newline parts)
  | _ =>
      if truthy value then rec content value
      else Done []
  end.

Definition expand_sections (rec : str -> value -> outcome str) (data : value)
    (template : str) : outcome str :=
  replace_global match_section
    (fun _ groups _ => section_cb rec data (fst groups) (snd groups))
    template.

(** The replacement function of the variable pass. *)
Definition var_cb (data : value) (matched key : str) : outcome str :=
  if str_eqb key (lit ".") then Done matched
  else
    let value := getNestedValue data key in
    if is_undefined value then Done matched else to_text value.

Definition interpolate (data : value) (template : str) : outcome str :=
  replace_global match_var (fun matched key _ => var_cb data matched key) template.

Fixpoint render_fuel (fuel : nat) (template : str) (data : value) : outcome str :=
  match fuel with
  | O => OutOfFuel
  | S fuel' =>
      template1 <- expand_sections (render_fuel fuel') data template ;;
      interpolate data template1
  end.

(** A section's content is shorter than the template it is cut from, so
    the length of the template bounds the depth of the recursion. *)
Definition render (template : str) (data : value) : outcome str :=
  render_fuel (S (length template)) template data.

(** ** Decidable side conditions of the statements *)

(** [needle] occurs somewhere in [s]. *)
Definition occursb (needle s : str) : bool :=
  match find_sub needle s with Some _ => true | None => false end.

(** A key as templates write it: not empty, no white space, no closing
    brace. *)
Definition plain_key (k : str) : bool :=
  match k with
  | [] => false
  | _ => forallb (fun c => negb (is_space c) && negb (N.eqb c 125)) k
  end.

(** The closing tag of [k] is not met before the end of [body]. *)
Definition closes_at_end (k body : str) : bool :=
  negb (occursb (close_tag k) (body ++ removelast (close_tag k))).

(** ** Vocabulary of the statements *)

(** What a matcher returns is a non-empty prefix of the text it looks at. *)
Definition matcher_sound {G : Type} (matcher : str -> option (str * G)) : Prop :=
  forall s m g, matcher s = Some (m, g) -> m <> [] /\ exists r, s = m ++ r.

Definition no_space (k : str) : bool := forallb (fun c => negb (is_space c)) k.

Definition is_mapping (v : value) : bool :=
  match v with VObj _ => true | _ => false end.


(** The placeholder [{{key}}]. *)
Definition placeholder (key : str) : str := lit "{{" ++ key ++ lit "}}".

(** Placeholder syntax somewhere in [t]: two opening braces, a non-empty
    run of characters that are no white space, two closing braces.  Section
    tags are of this form as well. *)
Definition has_placeholder (t : str) : Prop :=
  exists a key b,
    t = a ++ lit "{{" ++ key ++ lit "}}" ++ b /\ key <> [] /\ no_space key = true.

(** ** Contexts of the examples *)

Definition people : value :=
  VObj [(lit "a", VArr [VObj [(lit "x", VStr (lit "p"))];
                        VObj [(lit "x", VStr (lit "q"))]])].





Definition one_two_three : value :=
  VObj [(lit "a", VArr [VNum 1; VNum 2; VNum 3])].

Definition dollar_element : value :=
  VObj [(lit "a", VArr [VStr (lit "$&")])].

(** * The build script around the renderer

    [inlineCSS] and [build] work on files and the console.  The world they
    run in is modelled by the texts of its files, the directories that
    exist and the lines written to the console.  A file is its decoded
    text; reading a path that holds no file throws, writing stores the
    text.  [path.join], [JSON.parse] and the wording of error messages
    belong to the host and are parameters. *)

(** ** Non-global replace with a replacement string

    [s.replace(re, replacement)] for an expression without the global flag
    and without capture groups: the first match, from the left, gives way
    to the replacement, in which the dollar patterns are expanded. *)
Fixpoint replace_first_from (matcher : str -> option str)
    (replacement before s : str) : str :=
  match matcher s with
  | Some matched =>
      let after := skipn (length matched) s in
      before ++ get_substitution matched before after replacement ++ after
  | None =>
      match s with
      | [] => before
      | c :: rest => replace_first_from matcher replacement (before ++ [c]) rest
      end
  end.

Definition replace_first (matcher : str -> option str) (replacement s : str) : str :=
  replace_first_from matcher replacement [] s.

(** ** The stylesheet link *)

Definition link_open : str :=
  lit "<link rel=" ++ [34%N] ++ lit "stylesheet" ++ [34%N] ++ lit " href=" ++ [34%N].

Definition link_close : str := [34%N; 62%N].

(** The class of characters other than the double quote, starred, followed
    by the closing quote and bracket: the run is taken as long as it goes
    and given back one character at a time until the closing stands. *)
Fixpoint link_href (s : str) : option str :=
  match s with
  | [] => None
  | c :: rest =>
      match (if N.eqb c 34 then None else link_href rest) with
      | Some href => Some (c :: href)
      | None => if starts_with link_close s then Some [] else None
      end
  end.

(** The expression of [inlineCSS] at the head of [s]: the opening of the
    link up to the quote of [href], the address, the closing. *)
Definition match_link (s : str) : option str :=
  match strip link_open s with
  | Some r =>
      match link_href r with
      | Some href => Some (link_open ++ href ++ link_close)
      | None => None
      end
  | None => None
  end.

(** The replacement string of [inlineCSS]. *)
Definition style_block (css : str) : str :=
  lit "<style>" ++ newline ++ css ++ newline ++ lit "    </style>".

(** ** The world *)

Inductive stream : Type := Stdout | Stderr.

Record world : Type := {
  files : list (str * str);
  dirs : list str;
  console : list (stream * str)
}.

Inductive error : Type :=
| ENOENT (path : str)
| SyntaxError
| RenderError.

Inductive result (A : Type) : Type :=
| Ok (a : A)
| Throw (e : error).

Arguments Ok {A} a.
Arguments Throw {A} e.

Definition and_then {A B : Type} (r : result A) (f : A -> result B) : result B :=
  match r with
  | Ok a => f a
  | Throw e => Throw e
  end.

Fixpoint lookup_file (path : str) (fs : list (str * str)) : option str :=
  match fs with
  | [] => None
  | (p, text) :: rest => if str_eqb p path then Some text else lookup_file path rest
  end.

Definition readFileSync (w : world) (path : str) : result str :=
  match lookup_file path (files w) with
  | Some text => Ok text
  | None => Throw (ENOENT path)
  end.

Definition writeFileSync (w : world) (path data : str) : world :=
  {| files := (path, data) :: files w; dirs := dirs w; console := console w |}.



Definition console_log (w : world) (line : str) : world :=
  {| files := files w; dirs := dirs w; console := console w ++ [(Stdout, line)] |}.

Definition console_error (w : world) (line : str) : world :=
  {| files := files w; dirs := dirs w; console := console w ++ [(Stderr, line)] |}.

(** ** inlineCSS *)

Definition inlineCSS (w : world) (html cssPath : str) : result str :=
  and_then (readFileSync w cssPath) (fun css =>
  Ok (replace_first match_link (style_block css) html)).

(** ** build *)

Record paper : Type := {
  template : str;
  content : str;
  output : str;
  style : str
}.

Definition check_mark : str := [10003%N].
Definition cross_mark : str := [10007%N].

Section Build.
Variable dirname : str.
Variable path_join : str -> str -> str.
Variable JSON_parse : str -> option value.
Variable message : error -> str.

Definition TEMPLATES_DIR : str := path_join dirname (lit "templates").
Definition CONTENT_DIR : str := path_join dirname (lit "content").
Definition STYLES_DIR : str := path_join dirname (lit "styles").
Definition DIST_DIR : str := path_join dirname (lit "dist").

Definition NEWSPAPERS : list paper :=
  [ {| template := lit "chronicle.html"; content := lit "chronicle.json";
       output := lit "index.html"; style := lit "chronicle.css" |};
    {| template := lit "standard.html"; content := lit "standard.json";
       output := lit "standard.html"; style := lit "standard.css" |};
    {| template := lit "patriot.html"; content := lit "patriot.json";
       output := lit "patriot.html"; style := lit "patriot.css" |} ].

(** The body of the [try] block up to the rendered page. *)
Definition page (w : world) (p : paper) : result str :=
  let templatePath := path_join TEMPLATES_DIR (template p) in
  let contentPath := path_join CONTENT_DIR (content p) in
  let stylePath := path_join STYLES_DIR (style p) in
  and_then (readFileSync w templatePath) (fun template0 =>
  and_then (readFileSync w contentPath) (fun text =>
  and_then (match JSON_parse text with
            | Some c => Ok c
            | None => Throw SyntaxError
            end) (fun content0 =>
  and_then (inlineCSS w template0 stylePath) (fun template1 =>
  match render template1 content0 with
  | Done html => Ok html
  | _ => Throw RenderError
  end)))).

(** One turn of the loop: the [try] block and its [catch]. *)
Definition build_paper (w : world) (p : paper) : world :=
  let outputPath := path_join DIST_DIR (output p) in
  match page w p with
  | Ok html =>
      console_log (writeFileSync w outputPath html)
        (check_mark ++ lit " " ++ output p ++ lit " (" ++ template p
           ++ lit " + " ++ content p ++ lit ")")
  | Throw e =>
      console_error w (cross_mark ++ lit " " ++ output p ++ lit ": " ++ message e)
  end.

(** The three files a paper is built from, and the file it is built to. *)
Definition inputs (p : paper) : list str :=
  [ path_join TEMPLATES_DIR (template p);
    path_join CONTENT_DIR (content p);
    path_join STYLES_DIR (style p) ].

Definition target (p : paper) : str := path_join DIST_DIR (output p).

Definition build_papers (papers : list paper) (w : world) : world :=
  fold_left build_paper papers w.

End Build.

(** The line a turn of the loop writes names the output of its paper. *)
Definition names_output (p : paper) (line : stream * str) : Prop :=
  exists tail,
    (fst line = Stdout /\ snd line = check_mark ++ lit " " ++ output p ++ tail)
    \/ (fst line = Stderr /\ snd line = cross_mark ++ lit " " ++ output p ++ tail).

Definition quote_free (s : str) : bool := forallb (fun c => negb (N.eqb c 34)) s.

(** A host for the examples: paths joined by a slash, a parser that knows
    one object, one wording for every error. *)
Definition slash_join (a b : str) : str := a ++ lit "/" ++ b.

Definition parse_empty_object (text : str) : option value :=
  if str_eqb text (lit "{}") then Some (VObj []) else None.

Definition plain_message (e : error) : str :=
  match e with
  | ENOENT path => lit "ENOENT: " ++ path
  | SyntaxError => lit "SyntaxError"
  | RenderError => lit "TypeError"
  end.

(** Worlds of the examples. *)
Definition style_world : world :=
  {| files := [(lit "s.css", lit "p{}")]; dirs := []; console := [] |}.

Definition site_world : world :=
  {| files :=
       [ (lit "/site/templates/chronicle.html",
          link_open ++ lit "x.css" ++ link_close ++ lit "<h1>{{title}}</h1>");
         (lit "/site/content/chronicle.json", lit "{}");
         (lit "/site/styles/chronicle.css", lit "h1{color:{{title}}}");
         (lit "/site/templates/standard.html", lit "<p></p>");
         (lit "/site/content/standard.json", lit "{") ];
     dirs := [];
     console := [] |}.

Definition chronicle_paper : paper :=
  {| template := lit "chronicle.html"; content := lit "chronicle.json";
     output := lit "index.html"; style := lit "chronicle.css" |}.

Definition standard_paper : paper :=
  {| template := lit "standard.html"; content := lit "standard.json";
     output := lit "standard.html"; style := lit "standard.css" |}.

(** ** Vocabulary of the further properties *)


(** The object that holds [v] under the path of [segments]. *)
Definition nest (segments : list str) (v : value) : value :=
  fold_right (fun k inner => VObj [(k, inner)]) v segments.

Definition dot_free (k : str) : bool := negb (existsb (N.eqb 46) k).

Definition dollar_free (s : str) : bool := forallb (fun c => negb (N.eqb c 36)) s.

(** The number a run of decimal digits stands for, read after [acc]. *)
Definition parse_digits (key : str) (acc : N) : N :=
  fold_left (fun acc d => (acc * 10 + (d - 48))%N) key acc.

Definition is_number_or_string (v : value) : bool :=
  match v with VStr _ | VNum _ => true | _ => false end.

(** * Properties *)

(** ** Strings *)

Lemma str_eqb_eq (a b : str) : str_eqb a b = true <-> a = b.
Proof.
  unfold str_eqb. destruct (list_eq_dec N.eq_dec a b); split; congruence.
Qed.

Lemma strip_spec (p s r : str) : strip p s = Some r <-> s = p ++ r.
Proof.
  revert s. induction p as [|a p IH]; intros s; simpl.
  - split; congruence.
  - destruct s as [|b s]; [split; discriminate|].
    destruct (N.eqb_spec a b) as [->|Hne].
    + rewrite IH. split; congruence.
    + split; [discriminate | congruence].
Qed.

Lemma strip_app (p r : str) : strip p (p ++ r) = Some r.
Proof. now apply strip_spec. Qed.

Lemma starts_with_spec (p s : str) :
  starts_with p s = true <-> exists r, s = p ++ r.
Proof.
  revert s. induction p as [|a p IH]; intros s; simpl.
  - split; eauto.
  - destruct s as [|b s].
    + split; [discriminate | intros [r H]; discriminate].
    + rewrite andb_true_iff, N.eqb_eq, IH. split.
      * intros [-> [r ->]]. eauto.
      * intros [r H]. injection H as -> ->. eauto.
Qed.

Lemma starts_with_app (p r : str) : starts_with p (p ++ r) = true.
Proof. apply starts_with_spec. eauto. Qed.

Lemma starts_with_strip (p s : str) :
  starts_with p s = false -> strip p s = None.
Proof.
  intros H. destruct (strip p s) as [r|] eqn:E; [|reflexivity].
  apply strip_spec in E. subst s. now rewrite starts_with_app in H.
Qed.

Lemma find_sub_sound (needle hay before : str) :
  find_sub needle hay = Some before ->
  exists rest, hay = before ++ needle ++ rest.
Proof.
  revert before. induction hay as [|c hay IH]; intros before; simpl.
  - destruct (starts_with needle []) eqn:E; [|discriminate].
    intros [= <-]. apply starts_with_spec in E. exact E.
  - destruct (starts_with needle (c :: hay)) eqn:E.
    + intros [= <-]. apply starts_with_spec in E. exact E.
    + destruct (find_sub needle hay) as [b|]; [|discriminate].
      intros [= <-]. destruct (IH b eq_refl) as [rest ->]. now exists rest.
Qed.

Lemma find_sub_none (needle a b : str) :
  find_sub needle (a ++ needle ++ b) <> None.
Proof.
  induction a as [|c a IH]; simpl.
  - destruct needle; simpl.
    + destruct b; simpl; discriminate.
    + rewrite N.eqb_refl, starts_with_app. discriminate.
  - destruct (starts_with needle (c :: a ++ needle ++ b)); [discriminate|].
    destruct (find_sub needle (a ++ needle ++ b)); [discriminate | contradiction].
Qed.

Lemma occursb_false (needle s : str) :
  occursb needle s = false -> forall a b, s <> a ++ needle ++ b.
Proof.
  unfold occursb. intros H a b ->.
  destruct (find_sub needle (a ++ needle ++ b)) eqn:E; [discriminate|].
  now apply find_sub_none in E.
Qed.

Lemma occursb_suffix (needle a b : str) :
  occursb needle (a ++ b) = false -> occursb needle b = false.
Proof.
  intros H. destruct (occursb needle b) eqn:E; [|reflexivity].
  unfold occursb in E. destruct (find_sub needle b) as [x|] eqn:F; [|discriminate].
  apply find_sub_sound in F as [r ->].
  exfalso. apply (occursb_false _ _ H (a ++ x) r). now rewrite <- app_assoc.
Qed.

Lemma occursb_head (needle s : str) :
  occursb needle s = false -> starts_with needle s = false.
Proof.
  unfold occursb. intros H.
  destruct (starts_with needle s) eqn:E; [|reflexivity].
  destruct s; simpl in H; rewrite E in H; discriminate.
Qed.

Lemma starts_with_app_short (p x y : str) :
  length p <= length x -> starts_with p (x ++ y) = starts_with p x.
Proof.
  revert x. induction p as [|a p IH]; intros x H; [reflexivity|].
  destruct x as [|b x]; simpl in *; [lia|].
  rewrite IH by lia. reflexivity.
Qed.

Lemma length_removelast_str (s : str) : length (removelast s) = length s - 1.
Proof.
  rewrite removelast_firstn_len, length_firstn. lia.
Qed.

(** The first occurrence of [needle] in [body ++ needle ++ post] is the one
    written, when no occurrence begins inside [body]. *)
Lemma find_sub_first (needle body post : str) :
  needle <> [] ->
  occursb needle (body ++ removelast needle) = false ->
  find_sub needle (body ++ needle ++ post) = Some body.
Proof.
  intros Hne. induction body as [|c body IH]; intros H.
  - simpl. destruct needle as [|n needle]; [contradiction|].
    simpl. now rewrite N.eqb_refl, starts_with_app.
  - change ((c :: body) ++ needle ++ post) with (c :: body ++ needle ++ post).
    assert (Hs : starts_with needle (c :: body ++ needle ++ post) = false).
    { apply occursb_head in H.
      rewrite (app_removelast_last 0%N Hne) at 2.
      change (c :: body ++ (removelast needle ++ [last needle 0%N]) ++ post)
        with ((c :: body) ++ (removelast needle ++ [last needle 0%N]) ++ post).
      rewrite <- app_assoc, app_assoc.
      rewrite starts_with_app_short; [exact H|].
      rewrite length_app, length_removelast_str. simpl. lia. }
    simpl find_sub. rewrite Hs. rewrite IH; [reflexivity|].
    change ((c :: body) ++ removelast needle) with ([c] ++ body ++ removelast needle) in H.
    now apply occursb_suffix in H.
Qed.

(** ** Global replace *)

Section ReplaceFacts.
Context {G : Type}.
Variable matcher : str -> option (str * G).

Lemma scan_skip cb (a b : str) (pos : nat) :
  scan matcher cb pos (length a) (a ++ b) = scan matcher cb (pos + length a) 0 b.
Proof.
  revert pos. induction a as [|c a IH]; intros pos; simpl.
  - now rewrite Nat.add_0_r.
  - rewrite IH. f_equal. lia.
Qed.

Lemma scan_match cb (m rest : str) (g : G) (pos : nat) :
  m <> [] ->
  matcher (m ++ rest) = Some (m, g) ->
  scan matcher cb pos 0 (m ++ rest) =
    (r <- cb m g pos ;;
     t <- scan matcher cb (pos + length m) 0 rest ;;
     Done (r ++ t)).
Proof.
  intros Hne Hm. destruct m as [|c m]; [contradiction|].
  change ((c :: m) ++ rest) with (c :: m ++ rest) in *.
  simpl scan. rewrite Hm.
  replace (length (c :: m) - 1) with (length m) by (simpl; lia).
  rewrite scan_skip.
  replace (S pos + length m) with (pos + length (c :: m)) by (simpl; lia).
  reflexivity.
Qed.

Lemma scan_nomatch_prefix cb (pre rest : str) (pos : nat) :
  (forall a b, pre = a ++ b -> b <> [] -> matcher (b ++ rest) = None) ->
  scan matcher cb pos 0 (pre ++ rest) =
    (t <- scan matcher cb (pos + length pre) 0 rest ;; Done (pre ++ t)).
Proof.
  revert pos. induction pre as [|c pre IH]; intros pos H.
  - simpl. rewrite Nat.add_0_r.
    destruct (scan matcher cb pos 0 rest); reflexivity.
  - change ((c :: pre) ++ rest) with (c :: pre ++ rest).
    simpl scan.
    assert (H0 : matcher (c :: pre ++ rest) = None)
      by (apply (H [] (c :: pre)); [reflexivity | discriminate]).
    rewrite H0, IH.
    + simpl length. replace (S pos + length pre) with (pos + S (length pre)) by lia.
      destruct (scan matcher cb (pos + S (length pre)) 0 rest); reflexivity.
    + intros a b -> Hb. apply (H (c :: a) b); [reflexivity | exact Hb].
Qed.

(** Two replacement functions that agree on the matches of [s] give the
    same result. *)
Lemma scan_ext cb1 cb2 (s : str) (pos skip : nat) :
  (forall a b m g p, s = a ++ b -> matcher b = Some (m, g) ->
                     cb1 m g p = cb2 m g p) ->
  scan matcher cb1 pos skip s = scan matcher cb2 pos skip s.
Proof.
  revert pos skip. induction s as [|c s IH]; intros pos skip H; [reflexivity|].
  assert (Hs : forall p k, scan matcher cb1 p k s = scan matcher cb2 p k s).
  { intros p k. apply IH. intros a b m g q -> Hm.
    apply (H (c :: a) b); [reflexivity | exact Hm]. }
  simpl. destruct skip as [|k]; [|apply Hs].
  destruct (matcher (c :: s)) as [[m g]|] eqn:Hm.
  - rewrite (H [] (c :: s) m g pos eq_refl Hm), Hs. reflexivity.
  - rewrite Hs. reflexivity.
Qed.

(** The offset plays no part when the replacement function ignores it. *)
Lemma scan_pos cb (s : str) (p q skip : nat) :
  (forall m g x y, cb m g x = cb m g y) ->
  scan matcher cb p skip s = scan matcher cb q skip s.
Proof.
  intros H. revert p q skip. induction s as [|c s IH]; intros p q skip; [reflexivity|].
  simpl. destruct skip as [|k]; [|apply IH].
  destruct (matcher (c :: s)) as [[m g]|].
  - rewrite (H m g p q), (IH (S p) (S q)). reflexivity.
  - rewrite (IH (S p) (S q)). reflexivity.
Qed.

(** Replacing every match by itself changes nothing. *)
Lemma scan_identity cb (s : str) (pos skip : nat) :
  matcher_sound matcher ->
  (forall a b m g p, s = a ++ b -> matcher b = Some (m, g) ->
                     cb m g p = Done m) ->
  scan matcher cb pos skip s = Done (skipn skip s).
Proof.
  intros Hsound. revert pos skip.
  induction s as [|c s IH]; intros pos skip H.
  - now destruct skip.
  - assert (Hs : forall p k, scan matcher cb p k s = Done (skipn k s)).
    { intros p k. apply IH. intros a b m g q -> Hm.
      apply (H (c :: a) b); [reflexivity | exact Hm]. }
    simpl. destruct skip as [|k]; [|apply Hs].
    destruct (matcher (c :: s)) as [[m g]|] eqn:Hm.
    + rewrite (H [] (c :: s) m g pos eq_refl Hm), Hs. simpl.
      destruct (Hsound _ _ _ Hm) as [Hne [r Hr]].
      destruct m as [|c' m]; [contradiction|].
      injection Hr as <- ->.
      replace (length (c :: m) - 1) with (length m) by (simpl; lia).
      rewrite skipn_app, Nat.sub_diag, skipn_all. reflexivity.
    + rewrite Hs. reflexivity.
Qed.

Lemma scan_nomatch cb (s : str) :
  (forall a b, s = a ++ b -> matcher b = None) ->
  replace_global matcher cb s = Done s.
Proof.
  intros H. unfold replace_global.
  assert (E : forall pos skip, scan matcher cb pos skip s = Done (skipn skip s)).
  { revert H. induction s as [|c s IH]; intros H pos skip.
    - now destruct skip.
    - simpl. destruct skip as [|k].
      + rewrite (H [] (c :: s) eq_refl), IH; [reflexivity|].
        intros a b ->. apply (H (c :: a) b). reflexivity.
      + apply IH. intros a b ->. apply (H (c :: a) b). reflexivity. }
  apply E.
Qed.

End ReplaceFacts.

(** ** The matchers *)

(** Equalities of strings up to the bracketing of [++]. *)
Ltac str_eq :=
  repeat (progress (cbn [app lit map String.list_ascii_of_string]; rewrite <- ?app_assoc));
  reflexivity.

Lemma var_key_sound (acc s key : str) :
  var_key acc s = Some key ->
  exists k r, key = acc ++ k /\ k <> [] /\ s = k ++ lit "}}" ++ r /\
              no_space k = true.
Proof.
  revert acc. induction s as [|c s IH]; intros acc; cbn [var_key]; [discriminate|].
  destruct (is_space c) eqn:Hc; [discriminate|].
  destruct (starts_with (lit "}}") s) eqn:E.
  - intros [= <-]. apply starts_with_spec in E as [r ->].
    exists [c], r. repeat split; [discriminate|]. cbn. now rewrite Hc.
  - intros H. destruct (IH _ H) as (k & r & -> & _ & -> & Hk).
    exists (c :: k), r. rewrite <- app_assoc. repeat split; [discriminate|].
    unfold no_space in *. cbn [forallb]. now rewrite Hc, Hk.
Qed.

Lemma match_var_sound : matcher_sound match_var.
Proof.
  intros s m g. unfold match_var.
  destruct (strip (lit "{{") s) as [r|] eqn:Hs; [|discriminate].
  destruct (var_key [] r) as [key|] eqn:Hk; [|discriminate].
  intros [= <- <-]. split; [discriminate|].
  apply strip_spec in Hs. apply var_key_sound in Hk as (k & r' & -> & _ & -> & _).
  subst s. exists r'. simpl. now rewrite <- !app_assoc.
Qed.

Lemma section_key_sound (acc s key content : str) :
  section_key acc s = Some (key, content) ->
  exists k r, key = acc ++ k /\ k <> [] /\
              s = k ++ lit "}}" ++ content ++ close_tag key ++ r /\
              no_space k = true.
Proof.
  revert acc. induction s as [|c s IH]; intros acc; cbn [section_key]; [discriminate|].
  destruct (is_space c) eqn:Hc; [discriminate|].
  assert (Hrec : section_key (acc ++ [c]) s = Some (key, content) ->
                 exists k r, key = acc ++ k /\ k <> [] /\
                   c :: s = k ++ lit "}}" ++ content ++ close_tag key ++ r /\
                   no_space k = true).
  { intros H. destruct (IH _ H) as (k & r & -> & _ & -> & Hk).
    exists (c :: k), r. rewrite <- app_assoc. repeat split; [discriminate|].
    unfold no_space in *. cbn [forallb]. now rewrite Hc, Hk. }
  destruct (strip (lit "}}") s) as [after|] eqn:Hs; [|exact Hrec].
  destruct (find_sub (close_tag (acc ++ [c])) after) as [body|] eqn:Hf; [|exact Hrec].
  intros [= <- <-]. apply strip_spec in Hs.
  apply find_sub_sound in Hf as [r ->]. subst s.
  exists [c], r. repeat split; [discriminate|]. cbn. now rewrite Hc.
Qed.

Lemma match_section_shape (s m key content : str) :
  match_section s = Some (m, (key, content)) ->
  m = open_tag key ++ content ++ close_tag key /\ (exists r, s = m ++ r) /\
  no_space key = true.
Proof.
  unfold match_section.
  destruct (strip (lit "{{#") s) as [r|] eqn:Hs; [|discriminate].
  destruct (section_key [] r) as [[k c]|] eqn:Hk; [|discriminate].
  intros [= <- <- <-]. split; [reflexivity|].
  apply strip_spec in Hs.
  apply section_key_sound in Hk as (k' & r' & -> & _ & -> & Hn).
  split; [|exact Hn].
  subst s. exists r'. change ([] ++ k') with k'.
  unfold open_tag, close_tag. str_eq.
Qed.

Lemma match_section_sound : matcher_sound match_section.
Proof.
  intros s m [key content] H.
  apply match_section_shape in H as (-> & Hr & _). split; [discriminate | exact Hr].
Qed.

(** The content of a section is shorter than the text the section is
    found in. *)
Lemma match_section_shorter (a b m key content : str) :
  match_section b = Some (m, (key, content)) ->
  length content < length (a ++ b).
Proof.
  intros H. apply match_section_shape in H as (-> & [r ->] & _).
  rewrite !length_app. unfold open_tag. rewrite !length_app. simpl. lia.
Qed.


Lemma plain_key_cons (c : N) (k : str) :
  plain_key (c :: k) = true ->
  is_space c = false /\ c <> 125%N /\ (k = [] \/ plain_key k = true).
Proof.
  unfold plain_key. simpl forallb. rewrite !andb_true_iff, !negb_true_iff.
  intros [[Hs Hc] Hk]. repeat split; [exact Hs | now apply N.eqb_neq |].
  destruct k; [now left | now right].
Qed.

Lemma var_key_plain (acc k post : str) :
  plain_key k = true ->
  var_key acc (k ++ lit "}}" ++ post) = Some (acc ++ k).
Proof.
  revert acc. induction k as [|c k IH]; intros acc H; [discriminate|].
  apply plain_key_cons in H as (Hs & Hc & Hk).
  change ((c :: k) ++ lit "}}" ++ post) with (c :: (k ++ lit "}}" ++ post)).
  cbn [var_key]. rewrite Hs.
  destruct Hk as [-> | Hk].
  - rewrite app_nil_l. now rewrite starts_with_app.
  - destruct k as [|d k]; [discriminate|].
    pose proof (plain_key_cons _ _ Hk) as (_ & Hd & _).
    assert (E : starts_with (lit "}}") ((d :: k) ++ lit "}}" ++ post) = false).
    { change (lit "}}") with [125%N; 125%N]. cbn [app starts_with].
      apply N.eqb_neq in Hd. rewrite N.eqb_sym in Hd. now rewrite Hd. }
    rewrite E, IH by exact Hk. now rewrite <- app_assoc.
Qed.

(** A placeholder with a plain key is matched as written. *)
Lemma match_var_plain (k post : str) :
  plain_key k = true ->
  match_var (lit "{{" ++ k ++ lit "}}" ++ post) =
    Some (lit "{{" ++ k ++ lit "}}", k).
Proof.
  intros H. unfold match_var. rewrite strip_app.
  now rewrite (var_key_plain [] k post H).
Qed.

Lemma close_tag_nonempty (k : str) : close_tag k <> [].
Proof. discriminate. Qed.

Lemma section_key_block (acc k body post : str) :
  plain_key k = true ->
  closes_at_end (acc ++ k) body = true ->
  section_key acc (k ++ lit "}}" ++ body ++ close_tag (acc ++ k) ++ post) =
    Some (acc ++ k, body).
Proof.
  revert acc. induction k as [|c k IH]; intros acc H Hc; [discriminate|].
  apply plain_key_cons in H as (Hs & Hb & Hk).
  change ((c :: k) ++ lit "}}" ++ body ++ close_tag (acc ++ c :: k) ++ post)
    with (c :: (k ++ lit "}}" ++ body ++ close_tag (acc ++ c :: k) ++ post)).
  cbn [section_key]. rewrite Hs.
  destruct Hk as [-> | Hk].
  - rewrite app_nil_l, strip_app.
    unfold closes_at_end in Hc. apply negb_true_iff in Hc.
    now rewrite (find_sub_first _ body post (close_tag_nonempty _) Hc).
  - destruct k as [|d k]; [discriminate|].
    pose proof (plain_key_cons _ _ Hk) as (_ & Hd & _).
    assert (E : strip (lit "}}")
                  ((d :: k) ++ lit "}}" ++ body ++ close_tag (acc ++ c :: d :: k) ++ post)
                = None).
    { change (lit "}}") with [125%N; 125%N] at 1. cbn [app strip].
      apply N.eqb_neq in Hd. rewrite N.eqb_sym in Hd. now rewrite Hd. }
    rewrite E.
    replace (acc ++ c :: d :: k) with ((acc ++ [c]) ++ d :: k)
      by now rewrite <- app_assoc.
    apply IH; [exact Hk|].
    now rewrite <- app_assoc.
Qed.

(** A section block with a plain key whose closing tag is not met inside
    the body is matched as written. *)
Lemma match_section_block (k body post : str) :
  plain_key k = true ->
  closes_at_end k body = true ->
  match_section (open_tag k ++ body ++ close_tag k ++ post) =
    Some (open_tag k ++ body ++ close_tag k, (k, body)).
Proof.
  intros H Hc. unfold match_section, open_tag at 1.
  rewrite <- !app_assoc, strip_app.
  pose proof (section_key_block [] k body post H Hc) as E.
  change ([] ++ k) with k in E. now rewrite E.
Qed.

(** ** Values *)


(** ** Fuel *)

Lemma mapM_ext {A B : Type} (f g : A -> outcome B) (l : list A) :
  (forall x, In x l -> f x = g x) -> mapM f l = mapM g l.
Proof.
  induction l as [|a l IH]; intros H; [reflexivity|].
  simpl. rewrite (H a) by now left.
  rewrite IH; [reflexivity|]. intros x Hx. apply H. now right.
Qed.



Lemma section_cb_ext rec1 rec2 (data : value) (key content : str) :
  (forall item, rec1 content item = rec2 content item) ->
  section_cb rec1 data key content = section_cb rec2 data key content.
Proof.
  intros H. unfold section_cb.
  destruct (getNestedValue data key) as [| | b | z | s | items | fields];
    rewrite ?H; try reflexivity.
  erewrite mapM_ext; [reflexivity|].
  intros x _. destruct x; rewrite ?H; reflexivity.
Qed.

Lemma expand_sections_ext rec1 rec2 (data : value) (template : str) :
  (forall content item, length content < length template ->
                        rec1 content item = rec2 content item) ->
  expand_sections rec1 data template = expand_sections rec2 data template.
Proof.
  intros H. unfold expand_sections, replace_global.
  apply scan_ext. intros a b m [key content] p -> Hm. cbn [fst snd].
  apply section_cb_ext. intros item. apply H.
  exact (match_section_shorter a b m key content Hm).
Qed.

Lemma render_fuel_stable (n m : nat) (template : str) (data : value) :
  length template < n -> length template < m ->
  render_fuel n template data = render_fuel m template data.
Proof.
  revert m template data. induction n as [|n IH]; intros m template data Hn Hm; [lia|].
  destruct m as [|m]; [lia|]. cbn [render_fuel].
  rewrite (expand_sections_ext (render_fuel n) (render_fuel m)); [reflexivity|].
  intros content item Hlen. apply IH; lia.
Qed.

(** [render] is its own recursive call: the two passes of the source. *)
Lemma render_unfold (template : str) (data : value) :
  render template data =
    (template1 <- expand_sections render data template ;;
     interpolate data template1).
Proof.
  unfold render at 1. cbn [render_fuel].
  rewrite (expand_sections_ext (render_fuel (length template)) render); [reflexivity|].
  intros content item Hlen. unfold render. apply render_fuel_stable; lia.
Qed.



(** ** Where the passes find nothing *)

Lemma match_section_needs_open (s : str) :
  starts_with (lit "{{#") s = false -> match_section s = None.
Proof.
  intros H. unfold match_section. now rewrite (starts_with_strip _ _ H).
Qed.

Lemma match_var_needs_open (s : str) :
  starts_with (lit "{{") s = false -> match_var s = None.
Proof.
  intros H. unfold match_var. now rewrite (starts_with_strip _ _ H).
Qed.

(** Text without [{{#] holds no section, also when a section follows it. *)
Lemma no_section_before (pre rest : str) :
  occursb (lit "{{#") pre = false ->
  forall a b, pre = a ++ b -> b <> [] ->
              match_section (b ++ lit "{{#" ++ rest) = None.
Proof.
  intros H a b -> Hb. apply match_section_needs_open.
  apply occursb_suffix, occursb_head in H.
  destruct b as [|c1 [|c2 [|c3 b]]]; [contradiction| | |].
  - cbn. now rewrite !andb_false_r.
  - cbn. now rewrite !andb_false_r.
  - rewrite starts_with_app_short; [exact H | simpl; lia].
Qed.

(** Text in which no [{{] begins holds no placeholder, also when a
    placeholder follows it. *)
Lemma no_var_before (pre rest : str) :
  occursb (lit "{{") (pre ++ lit "{") = false ->
  forall a b, pre = a ++ b -> b <> [] ->
              match_var (b ++ lit "{{" ++ rest) = None.
Proof.
  intros H a b -> Hb. apply match_var_needs_open.
  rewrite <- app_assoc in H. apply occursb_suffix, occursb_head in H.
  destruct b as [|c1 [|c2 b]]; [contradiction| |].
  - cbn in H |- *. rewrite andb_true_r in H. now rewrite H.
  - rewrite starts_with_app_short by (simpl; lia).
    rewrite starts_with_app_short in H by (simpl; lia). exact H.
Qed.


(** ** A section block in its template *)

Lemma section_cb_pos rec (data : value) :
  forall (m : str) (g : str * str) (x y : nat),
    (fun (_ : str) groups (_ : nat) => section_cb rec data (fst groups) (snd groups)) m g x
    = (fun (_ : str) groups (_ : nat) => section_cb rec data (fst groups) (snd groups)) m g y.
Proof. reflexivity. Qed.

(** The section pass on a template whose first section is the block
    written: the text before is kept, the block gives way to what the
    replacement function returns, and the pass goes on behind it. *)
Lemma expand_sections_block rec (data : value) (pre k body post : str) :
  occursb (lit "{{#") pre = false ->
  plain_key k = true ->
  closes_at_end k body = true ->
  expand_sections rec data (pre ++ open_tag k ++ body ++ close_tag k ++ post) =
    (r <- section_cb rec data k body ;;
     rest <- expand_sections rec data post ;;
     Done (pre ++ r ++ rest)).
Proof.
  intros Hpre Hk Hc. unfold expand_sections, replace_global.
  rewrite scan_nomatch_prefix.
  - replace (open_tag k ++ body ++ close_tag k ++ post)
      with ((open_tag k ++ body ++ close_tag k) ++ post) by now rewrite <- !app_assoc.
    rewrite (scan_match _ _ _ post (k, body)).
    + cbn [fst snd].
      rewrite (scan_pos _ _ post _ 0 0 (section_cb_pos rec data)).
      destruct (section_cb rec data k body); try reflexivity.
      cbn [bind].
      destruct (scan match_section _ 0 0 post); reflexivity.
    + discriminate.
    + rewrite <- !app_assoc. now apply match_section_block.
  - intros a b E Hb. unfold open_tag. rewrite <- !app_assoc.
    now apply (no_section_before pre _ Hpre a b).
Qed.

(** The same at the level of [render]. *)
Lemma render_block (data : value) (pre k body post : str) :
  occursb (lit "{{#") pre = false ->
  plain_key k = true ->
  closes_at_end k body = true ->
  render (pre ++ open_tag k ++ body ++ close_tag k ++ post) data =
    (r <- section_cb render data k body ;;
     rest <- expand_sections render data post ;;
     interpolate data (pre ++ r ++ rest)).
Proof.
  intros Hpre Hk Hc.
  rewrite render_unfold, (expand_sections_block _ _ _ _ _ _ Hpre Hk Hc).
  destruct (section_cb render data k body); try reflexivity.
  cbn [bind]. destruct (expand_sections render data post); reflexivity.
Qed.

(** * The claims *)

(** ** Sections over a sequence of mappings *)

(** C2.  A section block whose key resolves to a sequence of mappings is
    replaced by the renderings of its body, one per element with that
    element as the context, joined by newlines; the variable pass then runs
    over the template so obtained.  The block is the first section of the
    template, its key is plain and its closing tag is the first one after
    the opening tag. *)
Theorem section_over_mappings (data : value) (pre k body post : str)
    (items : list value) :
  occursb (lit "{{#") pre = false ->
  plain_key k = true ->
  closes_at_end k body = true ->
  getNestedValue data k = VArr items ->
  forallb is_mapping items = true ->
  render (pre ++ open_tag k ++ body ++ close_tag k ++ post) data =
    (parts <- mapM (render body) items ;;
     rest <- expand_sections render data post ;;
     interpolate data (pre ++ join newline parts ++ rest)).
Proof.
  intros Hpre Hk Hc Hv Hm.
  rewrite (render_block _ _ _ _ _ Hpre Hk Hc). unfold section_cb. rewrite Hv.
  rewrite (mapM_ext _ (render body)).
  - destruct (mapM (render body) items); reflexivity.
  - intros x Hx. rewrite forallb_forall in Hm. specialize (Hm x Hx).
    destruct x; try discriminate. reflexivity.
Qed.

Lemma section_over_mappings_example :
  render (lit "{{#a}}{{x}}{{/a}}") people = Done (lit "p" ++ newline ++ lit "q").
Proof.
  refine (eq_trans
            (section_over_mappings people [] (lit "a") (lit "{{x}}") []
               [VObj [(lit "x", VStr (lit "p"))]; VObj [(lit "x", VStr (lit "q"))]]
               eq_refl eq_refl eq_refl eq_refl eq_refl) _).
  vm_compute. reflexivity.
Defined.

(** ** Sections over absent and falsy keys *)



(** ** Templates without sections, placeholders in their template *)

Lemma no_open_no_section (s : str) :
  occursb (lit "{{#") s = false ->
  forall a b, s = a ++ b -> match_section b = None.
Proof.
  intros H a b ->. apply match_section_needs_open.
  now apply occursb_suffix, occursb_head in H.
Qed.

Lemma expand_sections_none rec (data : value) (template : str) :
  occursb (lit "{{#") template = false ->
  expand_sections rec data template = Done template.
Proof.
  intros H. unfold expand_sections. apply scan_nomatch.
  now apply no_open_no_section.
Qed.

Lemma render_no_sections (data : value) (template : str) :
  occursb (lit "{{#") template = false ->
  render template data = interpolate data template.
Proof.
  intros H. now rewrite render_unfold, (expand_sections_none _ _ _ H).
Qed.

Lemma var_cb_pos (data : value) :
  forall (m g : str) (x y : nat),
    (fun matched key (_ : nat) => var_cb data matched key) m g x
    = (fun matched key (_ : nat) => var_cb data matched key) m g y.
Proof. reflexivity. Qed.

(** The variable pass on a template whose first placeholder is the one
    written. *)
Lemma interpolate_placeholder (data : value) (pre key post : str) :
  occursb (lit "{{") (pre ++ lit "{") = false ->
  plain_key key = true ->
  interpolate data (pre ++ placeholder key ++ post) =
    (r <- var_cb data (placeholder key) key ;;
     rest <- interpolate data post ;;
     Done (pre ++ r ++ rest)).
Proof.
  intros Hpre Hk. unfold interpolate, replace_global.
  rewrite scan_nomatch_prefix.
  - rewrite (scan_match _ _ _ post key).
    + rewrite (scan_pos _ _ post _ 0 0 (var_cb_pos data)).
      destruct (var_cb data (placeholder key) key); try reflexivity.
      cbn [bind]. destruct (scan match_var _ 0 0 post); reflexivity.
    + discriminate.
    + unfold placeholder. rewrite <- !app_assoc. now apply match_var_plain.
  - intros a b E Hb. unfold placeholder. rewrite <- !app_assoc.
    now apply (no_var_before pre _ Hpre a b).
Qed.


Lemma var_cb_not_found (data : value) (matched key : str) :
  getNestedValue data key = VUndefined -> var_cb data matched key = Done matched.
Proof.
  intros H. unfold var_cb. rewrite H.
  now destruct (str_eqb key (lit ".")).
Qed.

(** ** Unresolved placeholders *)



(** ** Rendered text *)

Lemma match_var_placeholder (a b m key : str) :
  match_var b = Some (m, key) -> has_placeholder (a ++ b).
Proof.
  unfold match_var.
  destruct (strip (lit "{{") b) as [r|] eqn:Hs; [|discriminate].
  destruct (var_key [] r) as [k|] eqn:Hk; [|discriminate]. intros _.
  apply strip_spec in Hs.
  apply var_key_sound in Hk as (k' & r' & _ & Hne & -> & Hn).
  subst b. now exists a, k', r'.
Qed.

Lemma match_section_placeholder (a b m : str) (g : str * str) :
  match_section b = Some (m, g) -> has_placeholder (a ++ b).
Proof.
  destruct g as [key content]. intros H.
  apply match_section_shape in H as (-> & [r ->] & Hn).
  exists a, (35%N :: key), (content ++ close_tag key ++ r).
  split; [|split; [discriminate|]].
  - unfold open_tag. str_eq.
  - unfold no_space in *. cbn [forallb]. now rewrite Hn.
Qed.

Lemma no_braces_no_placeholder (t : str) :
  occursb (lit "{{") t = false -> ~ has_placeholder t.
Proof.
  intros H (a & key & b & E & _). exact (occursb_false _ _ H _ _ E).
Qed.

(** C8.  A string without placeholder syntax, section tags included, is
    returned unchanged, whatever the context; so is, in particular, a
    string in which no [{{] occurs. *)
Theorem render_plain_text (template : str) (data : value) :
  ~ has_placeholder template ->
  render template data = Done template.
Proof.
  intros H. rewrite render_unfold.
  assert (E : expand_sections render data template = Done template).
  { unfold expand_sections. apply scan_nomatch. intros a b ->.
    destruct (match_section b) as [[m g]|] eqn:Hm; [|reflexivity].
    destruct H. exact (match_section_placeholder a b m g Hm). }
  rewrite E. cbn [bind]. unfold interpolate. apply scan_nomatch. intros a b ->.
  destruct (match_var b) as [[m key]|] eqn:Hm; [|reflexivity].
  destruct H. exact (match_var_placeholder a b m key Hm).
Qed.

Lemma render_plain_text_example :
  render (lit "1" ++ newline ++ lit "2" ++ newline ++ lit "3") (VObj [])
  = Done (lit "1" ++ newline ++ lit "2" ++ newline ++ lit "3").
Proof.
  apply render_plain_text. apply no_braces_no_placeholder. reflexivity.
Defined.

(** ** Sections over a single value *)






(** ** Nested lookup *)

Lemma getNestedValue_fold (obj : value) (path : str) :
  getNestedValue obj path = fold_left lookup_step (split_on 46 path) obj.
Proof. reflexivity. Qed.

Lemma split_on_cons (sep : N) (s : str) :
  exists h t, split_on sep s = h :: t.
Proof.
  induction s as [|c s [h [t IH]]]; simpl; [eauto|].
  destruct (N.eqb c sep); [eauto|]. rewrite IH. eauto.
Qed.

Lemma split_on_app (sep : N) (p q : str) :
  split_on sep (p ++ sep :: q) = split_on sep p ++ split_on sep q.
Proof.
  induction p as [|c p IH]; simpl.
  - now rewrite N.eqb_refl.
  - destruct (N.eqb c sep); [now rewrite IH|].
    rewrite IH. destruct (split_on_cons sep p) as [h [t ->]]. reflexivity.
Qed.

Lemma split_on_single (sep : N) (s : str) :
  existsb (N.eqb sep) s = false -> split_on sep s = [s].
Proof.
  induction s as [|c s IH]; simpl; [reflexivity|].
  rewrite orb_false_iff, N.eqb_sym. intros [-> H]. now rewrite (IH H).
Qed.

Lemma lookup_undefined (segments : list str) :
  fold_left lookup_step segments VUndefined = VUndefined.
Proof. induction segments as [|k l IH]; [reflexivity | exact IH]. Qed.

Lemma lookup_step_falsy (v : value) (key : str) :
  truthy v = false -> lookup_step v key = VUndefined.
Proof. intros H. unfold lookup_step. now rewrite H. Qed.

Lemma lookup_step_truthy (v : value) (key : str) :
  truthy v = true -> lookup_step v key = get_prop v key.
Proof.
  intros H. unfold lookup_step. rewrite H.
  now destruct (get_prop v key).
Qed.

Lemma getNestedValue_app (obj : value) (p q : str) :
  getNestedValue obj (p ++ lit "." ++ q) =
    getNestedValue (getNestedValue obj p) q.
Proof.
  rewrite !getNestedValue_fold. change (lit "." ++ q) with (46%N :: q).
  now rewrite split_on_app, fold_left_app.
Qed.

Lemma getNestedValue_falsy (v : value) (path : str) :
  truthy v = false -> getNestedValue v path = VUndefined.
Proof.
  intros H. rewrite getNestedValue_fold.
  destruct (split_on_cons 46 path) as [h [t ->]]. cbn [fold_left].
  rewrite (lookup_step_falsy _ _ H). apply lookup_undefined.
Qed.

Lemma getNestedValue_segment (v : value) (key : str) :
  existsb (N.eqb 46) key = false ->
  getNestedValue v key = if truthy v then get_prop v key else VUndefined.
Proof.
  intros H. rewrite getNestedValue_fold, (split_on_single _ _ H). cbn [fold_left].
  destruct (truthy v) eqn:E.
  - now apply lookup_step_truthy.
  - now apply lookup_step_falsy.
Qed.





(** ** Sections over a primitive *)




(** ** Determinism *)



(** ** Self-references in a sequence of primitives *)

Lemma get_substitution_literal (matched before after item : str) :
  forallb (fun c => negb (N.eqb c 36)) item = true ->
  get_substitution matched before after item = item.
Proof.
  induction item as [|c item IH]; [reflexivity|].
  cbn [forallb]. rewrite andb_true_iff, negb_true_iff. intros [Hc H].
  cbn [get_substitution]. rewrite Hc. now rewrite (IH H).
Qed.

(** An element without dollar sign takes the place of every [{{.}}]. *)
Lemma replace_self_literal (content item : str) :
  forallb (fun c => negb (N.eqb c 36)) item = true ->
  replace_self content item =
    replace_global match_self (fun _ _ _ => Done item) content.
Proof.
  intros H. unfold replace_self, replace_global. apply scan_ext.
  intros a b m g p _ _. now rewrite (get_substitution_literal _ _ _ _ H).
Qed.


(** C1.  On the sequence 1, 2, 3 the section renders one line per element,
    and an element without dollar sign takes the place of every
    self-reference.  On the element [$&] the self-reference is not replaced
    by the element's text: the text is read as a replacement pattern, [$&]
    stands for the match, and [{{.}}] comes back. *)
Theorem self_reference_pattern_slip :
  render (lit "{{#a}}{{.}}{{/a}}") one_two_three
    = Done (lit "1" ++ newline ++ lit "2" ++ newline ++ lit "3")
  /\ (forall content item,
        forallb (fun c => negb (N.eqb c 36)) item = true ->
        replace_self content item =
          replace_global match_self (fun _ _ _ => Done item) content)
  /\ render (lit "{{#a}}<{{.}}>{{/a}}") dollar_element = Done (lit "<{{.}}>")
  /\ render (lit "{{#a}}<{{.}}>{{/a}}") dollar_element <> Done (lit "<$&>").
Proof.
  assert (E : render (lit "{{#a}}<{{.}}>{{/a}}") dollar_element = Done (lit "<{{.}}>"))
    by (vm_compute; reflexivity).
  split; [vm_compute; reflexivity|].
  split; [exact replace_self_literal|]. split; [exact E|].
  rewrite E. discriminate.
Qed.


(** * Further properties of the renderer *)

(** ** Placeholders that are found *)

(** The first placeholder of a template without section tags gives way to
    what the replacement function of the variable pass returns. *)
Lemma render_first_placeholder (data : value) (pre key post : str) :
  occursb (lit "{{#") (pre ++ placeholder key ++ post) = false ->
  occursb (lit "{{") (pre ++ lit "{") = false ->
  plain_key key = true ->
  render (pre ++ placeholder key ++ post) data =
    (r <- var_cb data (placeholder key) key ;;
     rest <- interpolate data post ;;
     Done (pre ++ r ++ rest)).
Proof.
  intros Hs Hpre Hk.
  now rewrite (render_no_sections _ _ Hs), (interpolate_placeholder _ _ _ _ Hpre Hk).
Qed.

Lemma var_cb_found (data : value) (matched key : str) (v : value) :
  str_eqb key (lit ".") = false ->
  getNestedValue data key = v ->
  v <> VUndefined ->
  var_cb data matched key = to_text v.
Proof.
  intros Hdot Hv Hne. unfold var_cb. rewrite Hdot, Hv.
  destruct v; try reflexivity. contradiction.
Qed.

(** X1.  A placeholder whose key is found is replaced by the text of the
    value, falsy values included: 0, false, null and the empty string are
    written out, not skipped.  The text is put in as it stands and is not
    read again: a string value that itself holds placeholder syntax or
    dollar signs appears unchanged. *)
Theorem found_placeholder_substituted (data : value) (pre key post : str) (v : value) :
  occursb (lit "{{#") (pre ++ placeholder key ++ post) = false ->
  occursb (lit "{{") (pre ++ lit "{") = false ->
  plain_key key = true ->
  str_eqb key (lit ".") = false ->
  getNestedValue data key = v ->
  v <> VUndefined ->
  render (pre ++ placeholder key ++ post) data =
    (text <- to_text v ;;
     rest <- interpolate data post ;;
     Done (pre ++ text ++ rest))
  /\ (forall s, v = VStr s ->
        render (pre ++ placeholder key ++ post) data =
          (rest <- interpolate data post ;; Done (pre ++ s ++ rest))).
Proof.
  intros Hs Hpre Hk Hdot Hv Hne.
  assert (E : render (pre ++ placeholder key ++ post) data =
              (text <- to_text v ;;
               rest <- interpolate data post ;;
               Done (pre ++ text ++ rest))).
  { rewrite (render_first_placeholder _ _ _ _ Hs Hpre Hk).
    now rewrite (var_cb_found _ _ _ v Hdot Hv Hne). }
  split; [exact E|]. intros s ->. exact E.
Qed.

Lemma found_placeholder_substituted_example :
  render (lit "Count: {{n}}") (VObj [(lit "n", VNum 0)]) = Done (lit "Count: 0")
  /\ render (lit "{{t}}") (VObj [(lit "t", VStr (lit "{{u}} $&")); (lit "u", VNum 1)])
     = Done (lit "{{u}} $&").
Proof.
  split.
  - refine (eq_trans
              (proj1 (found_placeholder_substituted (VObj [(lit "n", VNum 0)])
                        (lit "Count: ") (lit "n") [] (VNum 0)
                        eq_refl eq_refl eq_refl eq_refl eq_refl _)) _);
      [discriminate | reflexivity].
  - refine (eq_trans
              (proj2 (found_placeholder_substituted
                        (VObj [(lit "t", VStr (lit "{{u}} $&")); (lit "u", VNum 1)])
                        [] (lit "t") [] (VStr (lit "{{u}} $&"))
                        eq_refl eq_refl eq_refl eq_refl eq_refl _)
                 (lit "{{u}} $&") eq_refl) _);
      [discriminate | reflexivity].
Defined.

(** X2.  The self-reference [{{.}}] outside a section is left as written,
    whatever the context holds. *)
Theorem self_reference_outside_section (data : value) (pre post : str) :
  occursb (lit "{{#") (pre ++ self_ref ++ post) = false ->
  occursb (lit "{{") (pre ++ lit "{") = false ->
  render (pre ++ self_ref ++ post) data =
    (rest <- interpolate data post ;; Done (pre ++ self_ref ++ rest)).
Proof.
  intros Hs Hpre.
  exact (render_first_placeholder data pre (lit ".") post Hs Hpre eq_refl).
Qed.

Lemma self_reference_outside_section_example :
  render (lit "a {{.}} b") (VObj [(lit ".", VNum 1); ([], VObj [([], VNum 2)])])
  = Done (lit "a {{.}} b").
Proof.
  exact (self_reference_outside_section
           (VObj [(lit ".", VNum 1); ([], VObj [([], VNum 2)])])
           (lit "a ") (lit " b") eq_refl eq_refl).
Defined.

(** X3.  Against a falsy context (undefined, null, false, 0, the empty
    string) nothing is found: a template without section tags comes back
    unchanged. *)
Theorem falsy_context_keeps_template (data : value) (template : str) :
  truthy data = false ->
  occursb (lit "{{#") template = false ->
  render template data = Done template.
Proof.
  intros Hd Hs. rewrite (render_no_sections _ _ Hs).
  unfold interpolate, replace_global.
  rewrite (scan_identity match_var _ template 0 0 match_var_sound); [reflexivity|].
  intros a b m key p _ _. apply var_cb_not_found. now apply getNestedValue_falsy.
Qed.

Lemma falsy_context_keeps_template_example :
  render (lit "{{title}} by {{author.name}}") VNull
  = Done (lit "{{title}} by {{author.name}}").
Proof.
  exact (falsy_context_keeps_template VNull (lit "{{title}} by {{author.name}}")
           eq_refl eq_refl).
Defined.

(** ** Section tags without their partner *)

Lemma match_section_needs_close (b m : str) (g : str * str) :
  match_section b = Some (m, g) -> occursb (lit "{{/") b = true.
Proof.
  destruct g as [key content]. intros H.
  apply match_section_shape in H as (-> & [r ->] & _).
  destruct (occursb (lit "{{/") ((open_tag key ++ content ++ close_tag key) ++ r)) eqn:E;
    [reflexivity|].
  exfalso.
  apply (occursb_false _ _ E (open_tag key ++ content) (key ++ lit "}}" ++ r)).
  unfold close_tag. str_eq.
Qed.

Lemma expand_sections_unclosed rec (data : value) (template : str) :
  occursb (lit "{{/") template = false ->
  expand_sections rec data template = Done template.
Proof.
  intros H. unfold expand_sections. apply scan_nomatch. intros a b ->.
  destruct (match_section b) as [[m g]|] eqn:Hm; [|reflexivity].
  apply match_section_needs_close in Hm.
  apply occursb_suffix in H. congruence.
Qed.

(** X4.  In a template that holds no closing tag no section is expanded:
    only the variable pass runs, and it reads an opening tag [{{#k}}] as the
    placeholder of the key [#k].  When the context has no such key the tag
    stays in the output as written. *)
Theorem unclosed_section_is_a_placeholder (data : value) (pre k post : str) :
  occursb (lit "{{/") (pre ++ open_tag k ++ post) = false ->
  occursb (lit "{{") (pre ++ lit "{") = false ->
  plain_key k = true ->
  render (pre ++ open_tag k ++ post) data =
    (r <- var_cb data (open_tag k) (35%N :: k) ;;
     rest <- interpolate data post ;;
     Done (pre ++ r ++ rest))
  /\ (getNestedValue data (35%N :: k) = VUndefined ->
      render (pre ++ open_tag k ++ post) data =
        (rest <- interpolate data post ;; Done (pre ++ open_tag k ++ rest))).
Proof.
  intros Hc Hpre Hk.
  assert (Hk' : plain_key (35%N :: k) = true).
  { unfold plain_key in *. destruct k; [discriminate|]. cbn [forallb] in *.
    now rewrite Hk. }
  assert (E : render (pre ++ open_tag k ++ post) data =
              (r <- var_cb data (open_tag k) (35%N :: k) ;;
               rest <- interpolate data post ;;
               Done (pre ++ r ++ rest))).
  { rewrite render_unfold, (expand_sections_unclosed _ _ _ Hc). cbn [bind].
    exact (interpolate_placeholder data pre (35%N :: k) post Hpre Hk'). }
  split; [exact E|]. intros Hv.
  now rewrite E, (var_cb_not_found _ _ _ Hv).
Qed.

Lemma unclosed_section_is_a_placeholder_example :
  render (lit "{{#a}}text") (VObj [(lit "a", VBool true)]) = Done (lit "{{#a}}text")
  /\ render (lit "{{#a}}text") (VObj [(lit "#a", VStr (lit "x"))]) = Done (lit "xtext").
Proof.
  split.
  - exact (proj2 (unclosed_section_is_a_placeholder (VObj [(lit "a", VBool true)])
                    [] (lit "a") (lit "text") eq_refl eq_refl eq_refl) eq_refl).
  - exact (proj1 (unclosed_section_is_a_placeholder (VObj [(lit "#a", VStr (lit "x"))])
                    [] (lit "a") (lit "text") eq_refl eq_refl eq_refl)).
Defined.

(** ** Values that are not text *)

Lemma to_text_strings (ss : list str) :
  to_text (VArr (map VStr ss)) = Done (join (lit ",") ss).
Proof.
  cbn [to_text].
  assert (E : forall l,
             (fix elems (l : list value) : outcome (list str) :=
                match l with
                | [] => Done []
                | x :: rest =>
                    p <- match x with
                         | VUndefined | VNull => Done []
                         | _ => to_text x
                         end ;;
                    ps <- elems rest ;;
                    Done (p :: ps)
                end) (map VStr l) = Done l).
  { induction l as [|s l IH]; [reflexivity|]. cbn [map to_text bind].
    now rewrite IH. }
  now rewrite E.
Qed.

(** X5.  A placeholder whose key resolves to an object is replaced by
    [[object Object]]; when the object has a field named [toString] the
    conversion to text fails and the call throws. *)
Theorem object_placeholder (data : value) (pre key post : str)
    (fields : list (str * value)) :
  occursb (lit "{{#") (pre ++ placeholder key ++ post) = false ->
  occursb (lit "{{") (pre ++ lit "{") = false ->
  plain_key key = true ->
  str_eqb key (lit ".") = false ->
  getNestedValue data key = VObj fields ->
  (has_field (lit "toString") fields = true ->
     render (pre ++ placeholder key ++ post) data = TypeError)
  /\ (has_field (lit "toString") fields = false ->
        render (pre ++ placeholder key ++ post) data =
          (rest <- interpolate data post ;;
           Done (pre ++ lit "[object Object]" ++ rest))).
Proof.
  intros Hs Hpre Hk Hdot Hv.
  pose proof (render_first_placeholder data pre key post Hs Hpre Hk) as E.
  rewrite (var_cb_found _ _ _ (VObj fields) Hdot Hv) in E by discriminate.
  cbn [to_text] in E.
  split; intros Hf; rewrite Hf in E; exact E.
Qed.

Lemma object_placeholder_example :
  render (lit "by {{author}}")
    (VObj [(lit "author", VObj [(lit "toString", VStr (lit "me"))])]) = TypeError
  /\ render (lit "by {{author}}")
       (VObj [(lit "author", VObj [(lit "name", VStr (lit "me"))])])
     = Done (lit "by [object Object]").
Proof.
  split.
  - exact (proj1 (object_placeholder
                    (VObj [(lit "author", VObj [(lit "toString", VStr (lit "me"))])])
                    (lit "by ") (lit "author") [] [(lit "toString", VStr (lit "me"))]
                    eq_refl eq_refl eq_refl eq_refl eq_refl) eq_refl).
  - exact (proj2 (object_placeholder
                    (VObj [(lit "author", VObj [(lit "name", VStr (lit "me"))])])
                    (lit "by ") (lit "author") [] [(lit "name", VStr (lit "me"))]
                    eq_refl eq_refl eq_refl eq_refl eq_refl) eq_refl).
Defined.

(** X6.  A placeholder whose key resolves to a sequence of strings is
    replaced by the strings joined by commas, nothing when the sequence is
    empty. *)
Theorem string_list_placeholder (data : value) (pre key post : str)
    (ss : list str) :
  occursb (lit "{{#") (pre ++ placeholder key ++ post) = false ->
  occursb (lit "{{") (pre ++ lit "{") = false ->
  plain_key key = true ->
  str_eqb key (lit ".") = false ->
  getNestedValue data key = VArr (map VStr ss) ->
  render (pre ++ placeholder key ++ post) data =
    (rest <- interpolate data post ;;
     Done (pre ++ join (lit ",") ss ++ rest)).
Proof.
  intros Hs Hpre Hk Hdot Hv.
  rewrite (render_first_placeholder data pre key post Hs Hpre Hk).
  rewrite (var_cb_found _ _ _ _ Hdot Hv) by discriminate.
  now rewrite to_text_strings.
Qed.

Lemma string_list_placeholder_example :
  render (lit "tags: {{tags}}")
    (VObj [(lit "tags", VArr [VStr (lit "a"); VStr (lit "b")])])
  = Done (lit "tags: a,b").
Proof.
  exact (string_list_placeholder
           (VObj [(lit "tags", VArr [VStr (lit "a"); VStr (lit "b")])])
           (lit "tags: ") (lit "tags") [] [lit "a"; lit "b"]
           eq_refl eq_refl eq_refl eq_refl eq_refl).
Defined.

(** ** Sequences of numbers and strings *)



(** No occurrence of [needle] begins inside [a], also when [needle]
    follows. *)
Lemma no_early_start (needle a2 post : str) :
  a2 <> [] ->
  starts_with needle (a2 ++ removelast needle) = false ->
  starts_with needle (a2 ++ needle ++ post) = false.
Proof.
  intros Ha H. destruct needle as [|n needle]; [now destruct a2|].
  rewrite (app_removelast_last 0%N (l := n :: needle)) at 2 by discriminate.
  rewrite <- app_assoc, app_assoc.
  rewrite starts_with_app_short; [exact H|].
  rewrite length_app, length_removelast_str.
  destruct a2; [contradiction|]. simpl. lia.
Qed.



Lemma replace_self_none (content item : str) :
  occursb self_ref content = false -> replace_self content item = Done content.
Proof.
  intros H. unfold replace_self. apply scan_nomatch. intros a b ->.
  unfold match_self. now rewrite (occursb_head _ _ (occursb_suffix _ _ _ H)).
Qed.

Lemma mapM_done {A B : Type} (f : A -> outcome B) (g : A -> B) (l : list A) :
  (forall x, In x l -> f x = Done (g x)) -> mapM f l = Done (map g l).
Proof.
  induction l as [|a l IH]; intros H; [reflexivity|].
  cbn [mapM map]. rewrite (H a) by now left. cbn [bind].
  rewrite IH; [reflexivity|]. intros x Hx. apply H. now right.
Qed.



(** X8.  In a section over a sequence of numbers and strings a body
    without self-reference is repeated once per element, whatever the
    elements are. *)
Theorem section_repeats_body (data : value) (pre k body post : str)
    (items : list value) :
  occursb (lit "{{#") pre = false ->
  plain_key k = true ->
  closes_at_end k body = true ->
  occursb self_ref body = false ->
  getNestedValue data k = VArr items ->
  forallb is_number_or_string items = true ->
  render (pre ++ open_tag k ++ body ++ close_tag k ++ post) data =
    (rest <- expand_sections render data post ;;
     interpolate data (pre ++ join newline (repeat body (length items)) ++ rest)).
Proof.
  intros Hpre Hk Hc Hb Hv Hi.
  rewrite (render_block _ _ _ _ _ Hpre Hk Hc). unfold section_cb. rewrite Hv.
  rewrite (mapM_done _ (fun _ => body)).
  - cbn [bind]. replace (map (fun _ => body) items) with (repeat body (length items)).
    + reflexivity.
    + clear. induction items as [|x l IH]; [reflexivity|]. cbn. now rewrite IH.
  - intros x Hx. rewrite forallb_forall in Hi. specialize (Hi x Hx).
    destruct x; try discriminate; now apply replace_self_none.
Qed.

Lemma section_repeats_body_example :
  render (lit "{{#n}}*{{/n}}") (VObj [(lit "n", VArr [VStr (lit "$&"); VNum 2])])
  = Done (lit "*" ++ newline ++ lit "*").
Proof.
  refine (eq_trans
            (section_repeats_body (VObj [(lit "n", VArr [VStr (lit "$&"); VNum 2])])
               [] (lit "n") (lit "*") [] [VStr (lit "$&"); VNum 2]
               eq_refl eq_refl eq_refl eq_refl eq_refl eq_refl) _).
  vm_compute. reflexivity.
Defined.

(** ** Paths *)

Lemma split_on_join (segments : list str) :
  segments <> [] ->
  forallb dot_free segments = true ->
  split_on 46 (join (lit ".") segments) = segments.
Proof.
  induction segments as [|p rest IH]; [contradiction|]. intros _ H.
  cbn [forallb] in H. apply andb_true_iff in H as [Hp Hrest].
  unfold dot_free in Hp. apply negb_true_iff in Hp.
  destruct rest as [|q rest].
  - cbn [join]. now apply split_on_single.
  - change (join (lit ".") (p :: q :: rest))
      with (p ++ 46%N :: join (lit ".") (q :: rest)).
    rewrite split_on_app, (split_on_single _ _ Hp), IH; [reflexivity|discriminate|exact Hrest].
Qed.

Lemma lookup_step_only_field (k : str) (inner : value) :
  lookup_step (VObj [(k, inner)]) k = inner.
Proof.
  unfold lookup_step. cbn [truthy get_prop assoc andb].
  assert (E : str_eqb k k = true) by now apply str_eqb_eq.
  rewrite E. now destruct inner.
Qed.

(** X9.  Lookup undoes nesting: the value stored under a path of segments
    without dots, however deep, is what the dotted path resolves to, falsy
    values included. *)
Theorem lookup_nested_round_trip (segments : list str) (v : value) :
  segments <> [] ->
  forallb dot_free segments = true ->
  getNestedValue (nest segments v) (join (lit ".") segments) = v.
Proof.
  intros Hne Hd. rewrite getNestedValue_fold, (split_on_join _ Hne Hd).
  clear. induction segments as [|k rest IH]; [reflexivity|].
  cbn [nest fold_right fold_left]. fold (nest rest v).
  now rewrite lookup_step_only_field.
Qed.

Lemma lookup_nested_round_trip_example :
  getNestedValue (nest [lit "a"; lit "b"; lit "c"] (VNum 0)) (lit "a.b.c") = VNum 0.
Proof.
  refine (lookup_nested_round_trip [lit "a"; lit "b"; lit "c"] (VNum 0) _ eq_refl).
  discriminate.
Defined.

(** ** Indices *)

Lemma uint_text_digits (d : Decimal.uint) :
  forallb digit (lit (NilEmpty.string_of_uint d)) = true.
Proof. induction d; cbn; try reflexivity; exact IHd. Qed.

Lemma parse_uint_text (d : Decimal.uint) (acc : positive) :
  parse_digits (lit (NilEmpty.string_of_uint d)) (N.pos acc)
  = N.pos (Pos.of_uint_acc d acc).
Proof.
  revert acc. unfold parse_digits.
  induction d; intros acc; [reflexivity| | | | | | | | | |];
    cbn [NilEmpty.string_of_uint Pos.of_uint_acc];
    match goal with
    | |- fold_left _ (lit (String.String ?a ?s)) _ = _ =>
        change (lit (String.String a s)) with (N_of_ascii a :: lit s)
    end;
    cbn [fold_left N_of_ascii N_of_digits];
    rewrite <- IHd; f_equal; lia.
Qed.

Lemma nzhead_no_zero (d : Decimal.uint) :
  match Decimal.nzhead d with Decimal.D0 _ => False | _ => True end.
Proof. induction d; cbn; try exact I; exact IHd. Qed.

Lemma pos_uint_no_zero (p : positive) :
  match Pos.to_uint p with Decimal.D0 _ | Decimal.Nil => False | _ => True end.
Proof.
  pose proof (DecimalPos.Unsigned.to_of (Pos.to_uint p)) as E.
  rewrite DecimalPos.Unsigned.of_to in E. cbn [N.to_uint] in E.
  pose proof (nzhead_no_zero (Pos.to_uint p)) as H.
  pose proof (DecimalPos.Unsigned.to_uint_nonzero p) as Hz.
  unfold Decimal.unorm in E.
  destruct (Decimal.nzhead (Pos.to_uint p)) eqn:En; rewrite E in *;
    try exact I; contradiction.
Qed.

Lemma index_of_leading_digit (c : N) (k : positive) (d : Decimal.uint) :
  digit c = true ->
  N.eqb c 48 = false ->
  (c - 48)%N = N.pos k ->
  index_of_key (c :: lit (NilEmpty.string_of_uint d))
  = Some (N.to_nat (N.pos (Pos.of_uint_acc d k))).
Proof.
  intros Hc Hz Hk. unfold index_of_key. cbn [forallb fold_left].
  rewrite Hc, uint_text_digits, Hz. cbn [negb orb andb].
  change (0 * 10 + (c - 48))%N with (c - 48)%N. rewrite Hk.
  change (fold_left (fun acc d0 => (acc * 10 + (d0 - 48))%N)
            (lit (NilEmpty.string_of_uint d)) (N.pos k))
    with (parse_digits (lit (NilEmpty.string_of_uint d)) (N.pos k)).
  now rewrite parse_uint_text.
Qed.

Lemma index_of_positive (p : positive) :
  index_of_key (num_text (Z.pos p)) = Some (Pos.to_nat p).
Proof.
  unfold num_text. cbn [Z.to_int NilZero.string_of_int].
  pose proof (pos_uint_no_zero p) as Hh.
  pose proof (DecimalPos.Unsigned.of_to p) as Hv.
  destruct (Pos.to_uint p) as [|d|d|d|d|d|d|d|d|d|d]; try contradiction;
    cbn [Pos.of_uint] in Hv;
    match type of Hv with
    | N.pos (Pos.of_uint_acc d ?k) = _ =>
        let c := eval vm_compute in (N.pos k + 48)%N in
        refine (eq_trans (index_of_leading_digit c k d eq_refl eq_refl eq_refl) _)
    end;
    rewrite Hv; reflexivity.
Qed.

Lemma index_of_number (i : nat) :
  index_of_key (num_text (Z.of_nat i)) = Some i.
Proof.
  destruct i as [|n]; [reflexivity|].
  cbn [Z.of_nat]. rewrite index_of_positive. f_equal.
  apply SuccNat2Pos.id_succ.
Qed.

Lemma index_key_facts (key : str) (i : nat) :
  index_of_key key = Some i ->
  str_eqb key (lit "length") = false /\ existsb (N.eqb 46) key = false.
Proof.
  unfold index_of_key. destruct key as [|c rest]; [discriminate|].
  destruct (forallb digit (c :: rest)) eqn:Hd; [|discriminate]. intros _.
  split.
  - destruct (str_eqb (c :: rest) (lit "length")) eqn:E; [|reflexivity].
    apply str_eqb_eq in E. rewrite E in Hd. discriminate.
  - clear - Hd. induction (c :: rest) as [|x l IH]; [reflexivity|].
    cbn [forallb existsb] in *. apply andb_true_iff in Hd as [Hx Hl].
    rewrite (IH Hl), orb_false_r.
    unfold digit in Hx. apply andb_true_iff in Hx as [H1 H2].
    apply N.leb_le in H1. apply N.eqb_neq. lia.
Qed.

(** X10.  The elements of a sequence are reached by their index written in
    decimal as a path segment, and the number of elements by [length]; an
    index past the end is not found. *)
Theorem sequence_index_lookup (obj : value) (p : str) (items : list value) (i : nat) :
  getNestedValue obj p = VArr items ->
  getNestedValue obj (p ++ lit "." ++ num_text (Z.of_nat i)) = nth i items VUndefined
  /\ (length items <= i ->
      getNestedValue obj (p ++ lit "." ++ num_text (Z.of_nat i)) = VUndefined)
  /\ getNestedValue obj (p ++ lit "." ++ lit "length")
     = VNum (Z.of_nat (length items)).
Proof.
  intros Hv.
  assert (E : getNestedValue obj (p ++ lit "." ++ num_text (Z.of_nat i))
              = nth i items VUndefined).
  { rewrite getNestedValue_app, Hv.
    pose proof (index_of_number i) as Hi.
    destruct (index_key_facts _ _ Hi) as [Hl Hdot].
    rewrite (getNestedValue_segment _ _ Hdot). cbn [truthy get_prop].
    now rewrite Hl, Hi. }
  split; [exact E|]. split.
  - intros Hle. rewrite E. now apply nth_overflow.
  - rewrite getNestedValue_app, Hv. reflexivity.
Qed.

Lemma sequence_index_lookup_example :
  getNestedValue (VObj [(lit "a", VArr [VStr (lit "x"); VNull])]) (lit "a.1") = VNull.
Proof.
  exact (proj1 (sequence_index_lookup
                  (VObj [(lit "a", VArr [VStr (lit "x"); VNull])]) (lit "a")
                  [VStr (lit "x"); VNull] 1 eq_refl)).
Defined.

(** * Properties of the build script *)

(** ** Replacing the first match *)

Lemma replace_first_from_eq (matcher : str -> option str)
    (replacement before s : str) :
  replace_first_from matcher replacement before s =
    match matcher s with
    | Some matched =>
        before
        ++ get_substitution matched before (skipn (length matched) s) replacement
        ++ skipn (length matched) s
    | None =>
        match s with
        | [] => before
        | c :: rest => replace_first_from matcher replacement (before ++ [c]) rest
        end
    end.
Proof. destruct s; reflexivity. Qed.

Lemma replace_first_from_none (matcher : str -> option str)
    (replacement before s : str) :
  (forall a b, s = a ++ b -> matcher b = None) ->
  replace_first_from matcher replacement before s = before ++ s.
Proof.
  revert before. induction s as [|c s IH]; intros before H.
  - rewrite replace_first_from_eq, (H [] [] eq_refl). now rewrite app_nil_r.
  - rewrite replace_first_from_eq, (H [] (c :: s) eq_refl).
    rewrite IH.
    + now rewrite <- app_assoc.
    + intros a b ->. apply (H (c :: a) b). reflexivity.
Qed.

Lemma replace_first_from_at (matcher : str -> option str)
    (replacement before pre rest matched : str) :
  (forall a b, pre = a ++ b -> b <> [] -> matcher (b ++ rest) = None) ->
  matcher rest = Some matched ->
  replace_first_from matcher replacement before (pre ++ rest) =
    (before ++ pre)
    ++ get_substitution matched (before ++ pre) (skipn (length matched) rest)
         replacement
    ++ skipn (length matched) rest.
Proof.
  revert before. induction pre as [|c pre IH]; intros before Hpre Hm.
  - rewrite app_nil_r. cbn [app].
    now rewrite replace_first_from_eq, Hm.
  - change ((c :: pre) ++ rest) with (c :: pre ++ rest).
    rewrite replace_first_from_eq.
    assert (H0 : matcher (c :: pre ++ rest) = None)
      by (apply (Hpre [] (c :: pre)); [reflexivity | discriminate]).
    rewrite H0, IH.
    + replace ((before ++ [c]) ++ pre) with (before ++ c :: pre)
        by now rewrite <- app_assoc.
      reflexivity.
    + intros a b -> Hb. apply (Hpre (c :: a) b); [reflexivity | exact Hb].
    + exact Hm.
Qed.

(** ** The stylesheet link *)

Lemma link_href_complete (href post : str) :
  quote_free href = true ->
  link_href (href ++ link_close ++ post) = Some href.
Proof.
  induction href as [|c href IH]; intros H.
  - reflexivity.
  - unfold quote_free in *. cbn [forallb] in H.
    apply andb_true_iff in H as [Hc H]. apply negb_true_iff in Hc.
    change ((c :: href) ++ link_close ++ post) with (c :: href ++ link_close ++ post).
    cbn [link_href]. rewrite Hc. now rewrite (IH H).
Qed.

Lemma link_href_sound (s href : str) :
  link_href s = Some href ->
  quote_free href = true /\ exists r, s = href ++ link_close ++ r.
Proof.
  revert href. induction s as [|c s IH]; intros href; [discriminate|].
  cbn [link_href].
  destruct (N.eqb c 34) eqn:Hc.
  - destruct (starts_with link_close (c :: s)) eqn:E; [|discriminate].
    intros [= <-]. split; [reflexivity|]. now apply starts_with_spec in E.
  - destruct (link_href s) as [h|] eqn:Eh.
    + intros [= <-]. destruct (IH h eq_refl) as [Hq [r ->]].
      split; [|now exists r].
      unfold quote_free in *. cbn [forallb]. now rewrite Hc, Hq.
    + destruct (starts_with link_close (c :: s)) eqn:E; [|discriminate].
      intros [= <-]. split; [reflexivity|]. now apply starts_with_spec in E.
Qed.

Lemma match_link_here (href post : str) :
  quote_free href = true ->
  match_link (link_open ++ href ++ link_close ++ post)
  = Some (link_open ++ href ++ link_close).
Proof.
  intros H. unfold match_link. rewrite strip_app.
  now rewrite (link_href_complete _ _ H).
Qed.

Lemma match_link_needs_open (s : str) :
  starts_with link_open s = false -> match_link s = None.
Proof.
  intros H. unfold match_link. now rewrite (starts_with_strip _ _ H).
Qed.

Lemma no_link_before (pre rest : str) :
  occursb link_open (pre ++ removelast link_open) = false ->
  forall a b, pre = a ++ b -> b <> [] ->
              match_link (b ++ link_open ++ rest) = None.
Proof.
  intros H a b -> Hb. apply match_link_needs_open.
  rewrite <- app_assoc in H. apply occursb_suffix, occursb_head in H.
  now apply no_early_start.
Qed.

Lemma style_block_dollar_free (css : str) :
  dollar_free css = true -> dollar_free (style_block css) = true.
Proof.
  intros H. unfold style_block, dollar_free in *.
  rewrite !forallb_app, H. reflexivity.
Qed.

(** X11.  [inlineCSS] replaces the first stylesheet link of the page, and
    only that one, by a style element around the text of the stylesheet;
    what stands before and after the link is kept as it is, further links
    included.  The text of the stylesheet is read as a replacement pattern;
    a stylesheet without dollar sign is put in as it stands. *)
Theorem inlineCSS_first_link (w : world) (pre href post cssPath css : str) :
  readFileSync w cssPath = Ok css ->
  occursb link_open (pre ++ removelast link_open) = false ->
  quote_free href = true ->
  inlineCSS w (pre ++ link_open ++ href ++ link_close ++ post) cssPath =
    Ok (pre
        ++ get_substitution (link_open ++ href ++ link_close) pre post
             (style_block css)
        ++ post)
  /\ (dollar_free css = true ->
      inlineCSS w (pre ++ link_open ++ href ++ link_close ++ post) cssPath =
        Ok (pre ++ style_block css ++ post)).
Proof.
  intros Hr Hpre Hq.
  assert (E : inlineCSS w (pre ++ link_open ++ href ++ link_close ++ post) cssPath =
              Ok (pre
                  ++ get_substitution (link_open ++ href ++ link_close) pre post
                       (style_block css)
                  ++ post)).
  { unfold inlineCSS. rewrite Hr. cbn [and_then]. f_equal.
    unfold replace_first.
    rewrite (replace_first_from_at match_link _ [] pre
               (link_open ++ href ++ link_close ++ post)
               (link_open ++ href ++ link_close)).
    - cbn [app].
      replace (skipn (length (link_open ++ href ++ link_close))
                 (link_open ++ href ++ link_close ++ post)) with post.
      + reflexivity.
      + replace (link_open ++ href ++ link_close ++ post)
          with ((link_open ++ href ++ link_close) ++ post)
          by now rewrite <- !app_assoc.
        now rewrite skipn_app, Nat.sub_diag, skipn_all.
    - intros a b E Hb. now apply (no_link_before pre _ Hpre a b).
    - now apply match_link_here. }
  split; [exact E|]. intros Hd. rewrite E.
  now rewrite (get_substitution_literal _ _ _ _ (style_block_dollar_free _ Hd)).
Qed.

Lemma inlineCSS_first_link_example :
  inlineCSS style_world
    (lit "<head>" ++ link_open ++ lit "a.css" ++ link_close ++ lit "</head>"
       ++ link_open ++ lit "b.css" ++ link_close)
    (lit "s.css")
  = Ok (lit "<head>" ++ style_block (lit "p{}") ++ lit "</head>"
          ++ link_open ++ lit "b.css" ++ link_close).
Proof.
  refine (eq_trans
            (proj2 (inlineCSS_first_link style_world (lit "<head>") (lit "a.css")
                      (lit "</head>" ++ link_open ++ lit "b.css" ++ link_close)
                      (lit "s.css") (lit "p{}") eq_refl eq_refl eq_refl) eq_refl) _).
  reflexivity.
Defined.

(** X12.  A page without the opening of a stylesheet link passes through
    [inlineCSS] unchanged.  The stylesheet is read all the same: when it is
    missing the call throws, link or no link. *)
Theorem inlineCSS_without_link (w : world) (html cssPath : str) :
  occursb link_open html = false ->
  (forall css, readFileSync w cssPath = Ok css -> inlineCSS w html cssPath = Ok html)
  /\ (lookup_file cssPath (files w) = None ->
      inlineCSS w html cssPath = Throw (ENOENT cssPath)).
Proof.
  intros H. split.
  - intros css Hr. unfold inlineCSS. rewrite Hr. cbn [and_then]. f_equal.
    unfold replace_first. rewrite replace_first_from_none; [reflexivity|].
    intros a b ->. apply match_link_needs_open.
    now apply occursb_suffix, occursb_head in H.
  - intros Hn. unfold inlineCSS, readFileSync. now rewrite Hn.
Qed.

Lemma inlineCSS_without_link_example :
  inlineCSS style_world (lit "<p>{{title}}</p>") (lit "s.css")
    = Ok (lit "<p>{{title}}</p>")
  /\ inlineCSS style_world (lit "<p>{{title}}</p>") (lit "t.css")
     = Throw (ENOENT (lit "t.css")).
Proof.
  pose proof (inlineCSS_without_link style_world (lit "<p>{{title}}</p>")
                (lit "s.css") eq_refl) as [E _].
  pose proof (inlineCSS_without_link style_world (lit "<p>{{title}}</p>")
                (lit "t.css") eq_refl) as [_ F].
  split; [exact (E (lit "p{}") eq_refl) | exact (F eq_refl)].
Defined.

Lemma link_href_other (href rest : str) (c : N) :
  quote_free href = true ->
  N.eqb c 62 = false ->
  link_href (href ++ 34%N :: c :: rest) = None.
Proof.
  intros H Hc. rewrite N.eqb_sym in Hc. induction href as [|x href IH].
  - change (link_href ([] ++ 34%N :: c :: rest))
      with (if N.eqb 62 c && true then Some (@nil N) else None).
    now rewrite Hc.
  - unfold quote_free in *. cbn [forallb] in H.
    apply andb_true_iff in H as [Hx H]. apply negb_true_iff in Hx.
    change ((x :: href) ++ 34%N :: c :: rest) with (x :: href ++ 34%N :: c :: rest).
    cbn [link_href]. rewrite Hx, (IH H).
    cbn [link_close starts_with]. rewrite N.eqb_sym in Hx. now rewrite Hx.
Qed.

Lemma suffix_of_app (x y a b : str) :
  x ++ y = a ++ b ->
  (exists x1 x2, x = x1 ++ x2 /\ x2 <> [] /\ b = x2 ++ y)
  \/ (exists y1, y = y1 ++ b).
Proof.
  revert a. induction x as [|c x IH]; intros a H.
  - right. now exists a.
  - destruct a as [|d a].
    + left. exists [], (c :: x). cbn [app] in H. subst b.
      split; [reflexivity|]. split; [discriminate | reflexivity].
    + injection H as <- H. destruct (IH a H) as [(x1 & x2 & -> & Hne & ->) | Hy].
      * left. now exists (c :: x1), x2.
      * now right.
Qed.

(** The opening of the link begins nowhere inside itself. *)
Lemma link_open_inside (l1 l2 tail : str) :
  link_open = l1 ++ l2 -> l1 <> [] -> l2 <> [] ->
  starts_with link_open (l2 ++ tail) = false.
Proof.
  intros E H1 H2.
  destruct l1 as [|a l1]; [contradiction|]. destruct l2 as [|d l2]; [contradiction|].
  assert (Hd : N.eqb 60 d = false).
  { assert (Hin : In d (tl link_open)) by (rewrite E; cbn [tl app]; apply in_elt).
    assert (Hall : forallb (fun c => negb (N.eqb 60 c)) (tl link_open) = true)
      by reflexivity.
    rewrite forallb_forall in Hall. now apply negb_true_iff, Hall. }
  change link_open with (60%N :: tl link_open).
  cbn [app starts_with]. now rewrite Hd.
Qed.

(** X13.  The link is recognised only when the closing bracket follows the
    quote that ends the address: a stylesheet link that goes on after the
    address, with a further attribute or a slash, is not replaced, and a
    page with no other link comes back unchanged. *)
Theorem inlineCSS_longer_link (w : world) (pre href rest cssPath css : str) (c : N) :
  readFileSync w cssPath = Ok css ->
  occursb link_open (pre ++ removelast link_open) = false ->
  quote_free href = true ->
  N.eqb c 62 = false ->
  occursb link_open (href ++ 34%N :: c :: rest) = false ->
  inlineCSS w (pre ++ link_open ++ href ++ 34%N :: c :: rest) cssPath =
    Ok (pre ++ link_open ++ href ++ 34%N :: c :: rest).
Proof.
  intros Hr Hpre Hq Hc Htail.
  unfold inlineCSS. rewrite Hr. cbn [and_then]. f_equal.
  unfold replace_first. rewrite replace_first_from_none; [reflexivity|].
  intros a b E.
  destruct (suffix_of_app _ _ _ _ E) as [(x1 & x2 & -> & Hne & ->) | [y1 E1]].
  - now apply (no_link_before (x1 ++ x2) _ Hpre x1 x2).
  - destruct (suffix_of_app _ _ _ _ E1) as [(l1 & l2 & El & Hne & ->) | [t1 E2]].
    + destruct l1 as [|a1 l1].
      * cbn [app] in El. subst l2. unfold match_link. rewrite strip_app.
        now rewrite (link_href_other _ _ _ Hq Hc).
      * apply match_link_needs_open.
        apply (link_open_inside (a1 :: l1) l2); [exact El | discriminate | exact Hne].
    + apply match_link_needs_open. rewrite E2 in Htail.
      now apply occursb_suffix, occursb_head in Htail.
Qed.

Lemma inlineCSS_longer_link_example :
  inlineCSS style_world
    (link_open ++ lit "a.css" ++ [34%N] ++ lit " media=print>") (lit "s.css")
  = Ok (link_open ++ lit "a.css" ++ [34%N] ++ lit " media=print>").
Proof.
  exact (inlineCSS_longer_link style_world [] (lit "a.css") (lit "media=print>")
           (lit "s.css") (lit "p{}") 32 eq_refl eq_refl eq_refl eq_refl eq_refl).
Defined.

(** ** The loop of build *)

Lemma lookup_file_write (w : world) (path data q : str) :
  q <> path ->
  lookup_file q (files (writeFileSync w path data)) = lookup_file q (files w).
Proof.
  intros H. cbn [writeFileSync files lookup_file].
  destruct (str_eqb path q) eqn:E; [|reflexivity].
  apply str_eqb_eq in E. congruence.
Qed.


Section BuildFacts.
Variable dirname : str.
Variable path_join : str -> str -> str.
Variable JSON_parse : str -> option value.
Variable message : error -> str.

Let page_of := page dirname path_join JSON_parse.
Let step := build_paper dirname path_join JSON_parse message.
Let loop := build_papers dirname path_join JSON_parse message.
Let inputs_of := inputs dirname path_join.
Let target_of := target dirname path_join.

Lemma build_paper_keeps (w : world) (p : paper) (q : str) :
  q <> target_of p ->
  lookup_file q (files (step w p)) = lookup_file q (files w).
Proof.
  intros H. unfold step, build_paper.
  destruct (page dirname path_join JSON_parse w p) as [html|e].
  - cbn [console_log files]. now apply lookup_file_write.
  - reflexivity.
Qed.

Lemma build_paper_dirs (w : world) (p : paper) : dirs (step w p) = dirs w.
Proof.
  unfold step, build_paper.
  now destruct (page dirname path_join JSON_parse w p).
Qed.

Lemma page_agrees (w w' : world) (p : paper) :
  (forall q, In q (inputs_of p) -> lookup_file q (files w') = lookup_file q (files w)) ->
  page_of w' p = page_of w p.
Proof.
  intros H. unfold page_of, page, inlineCSS, readFileSync.
  rewrite !H; [reflexivity | | |]; unfold inputs_of, inputs; cbn [In]; auto.
Qed.

(** What every turn keeps, the loop keeps. *)
Lemma loop_invariant (P : world -> Prop) (papers : list paper) :
  (forall w p, In p papers -> P w -> P (step w p)) ->
  forall w, P w -> P (loop papers w).
Proof.
  unfold loop, build_papers. induction papers as [|p papers IH]; intros H w Hw.
  - exact Hw.
  - cbn [fold_left]. apply IH.
    + intros w' p' Hp'. apply H. now right.
    + apply (H w p); [now left | exact Hw].
Qed.

Lemma loop_keeps_other_files (papers : list paper) (w : world) (q : str) :
  (forall p, In p papers -> q <> target_of p) ->
  lookup_file q (files (loop papers w)) = lookup_file q (files w).
Proof.
  intros H.
  apply (loop_invariant
           (fun w' => lookup_file q (files w') = lookup_file q (files w)) papers);
    [|reflexivity].
  intros w' p Hp E. rewrite <- E. apply build_paper_keeps. now apply H.
Qed.

(** X14.  The loop writes to the targets of its papers and nowhere else:
    a path that is the target of no paper holds after the loop what it
    held before, and the directories are the same. *)
Theorem build_papers_keeps_other_files (papers : list paper) (w : world) (q : str) :
  (forall p, In p papers -> q <> target_of p) ->
  lookup_file q (files (loop papers w)) = lookup_file q (files w)
  /\ dirs (loop papers w) = dirs w.
Proof.
  intros H.
  apply (loop_invariant
           (fun w' => lookup_file q (files w') = lookup_file q (files w)
                      /\ dirs w' = dirs w) papers); [|now split].
  intros w' p Hp [E D]. split.
  - rewrite <- E. apply build_paper_keeps. now apply H.
  - rewrite <- D. apply build_paper_dirs.
Qed.

(** X15.  What a paper is built from is read when its turn comes, and the
    turns before it count only through what they wrote: when no earlier
    paper has one of its three inputs as target, its page, or the error it
    ends in, is the one the world before the loop gives, whether the
    earlier papers were built or failed. *)
Theorem build_paper_isolated (before : list paper) (p : paper) (w : world) :
  (forall p' q, In p' before -> In q (inputs_of p) -> q <> target_of p') ->
  page_of (loop before w) p = page_of w p.
Proof.
  intros H. apply page_agrees. intros q Hq.
  apply (loop_keeps_other_files before w q).
  intros p' Hp'. now apply (H p' q).
Qed.

Lemma build_paper_console (w : world) (p : paper) :
  exists line, console (step w p) = console w ++ [line] /\ names_output p line.
Proof.
  unfold step, build_paper.
  destruct (page dirname path_join JSON_parse w p) as [html|e].
  - eexists. split; [reflexivity|]. eexists. left. split; reflexivity.
  - eexists. split; [reflexivity|]. eexists. right. split; reflexivity.
Qed.

Lemma loop_console (papers : list paper) (w : world) :
  exists lines,
    console (loop papers w) = console w ++ lines
    /\ Forall2 names_output papers lines.
Proof.
  unfold loop, build_papers. revert w.
  induction papers as [|p papers IH]; intros w.
  - exists []. split; [now rewrite app_nil_r | constructor].
  - cbn [fold_left].
    destruct (build_paper_console w p) as (line & E & Hn).
    destruct (IH (build_paper dirname path_join JSON_parse message w p))
      as (lines & E' & Hl).
    exists (line :: lines). split.
    + rewrite E'. unfold step in E. rewrite E. now rewrite <- app_assoc.
    + now constructor.
Qed.

(** X16.  No failure stops the loop: every paper gets its turn and writes
    exactly one line to the console, a check mark on the standard output or
    a cross on the error output, followed by the name of its output; the
    lines come in the order of the papers and are as many as the papers. *)
Theorem build_papers_console (papers : list paper) (w : world) :
  exists lines,
    console (loop papers w) = console w ++ lines
    /\ Forall2 names_output papers lines
    /\ length (console (loop papers w)) = length (console w) + length papers.
Proof.
  destruct (loop_console papers w) as (lines & E & Hl).
  exists lines. split; [exact E|]. split; [exact Hl|].
  rewrite E, length_app. f_equal. symmetry.
  clear E. induction Hl as [|p l ps ls _ _ IH]; [reflexivity|].
  cbn [length]. now rewrite IH.
Qed.


(** X18.  A paper that cannot be built writes no file and logs one line on
    the error output, with the message of the first step that failed: the
    template is read first, then the content is read and parsed, then the
    stylesheet is read, then the page is rendered. *)
Theorem build_paper_failure (w : world) (p : paper) (e : error) :
  page_of w p = Throw e ->
  files (step w p) = files w
  /\ console (step w p) =
       console w ++ [(Stderr, cross_mark ++ lit " " ++ output p ++ lit ": " ++ message e)]
  /\ (lookup_file (path_join (TEMPLATES_DIR dirname path_join) (template p)) (files w)
        = None ->
      e = ENOENT (path_join (TEMPLATES_DIR dirname path_join) (template p)))
  /\ (forall template0,
        lookup_file (path_join (TEMPLATES_DIR dirname path_join) (template p)) (files w)
          = Some template0 ->
        lookup_file (path_join (CONTENT_DIR dirname path_join) (content p)) (files w)
          = None ->
        e = ENOENT (path_join (CONTENT_DIR dirname path_join) (content p)))
  /\ (forall template0 text,
        lookup_file (path_join (TEMPLATES_DIR dirname path_join) (template p)) (files w)
          = Some template0 ->
        lookup_file (path_join (CONTENT_DIR dirname path_join) (content p)) (files w)
          = Some text ->
        JSON_parse text = None ->
        e = SyntaxError).
Proof.
  unfold page_of. intros E.
  split; [|split; [|split; [|split]]].
  - unfold step, build_paper. now rewrite E.
  - unfold step, build_paper. now rewrite E.
  - intros Ht. unfold page, readFileSync in E. rewrite Ht in E. cbn in E. congruence.
  - intros template0 Ht Hc. unfold page, readFileSync in E.
    rewrite Ht, Hc in E. cbn in E. congruence.
  - intros template0 text Ht Hc Hp. unfold page, readFileSync in E.
    rewrite Ht, Hc in E. cbn [and_then] in E. rewrite Hp in E. cbn in E. congruence.
Qed.



End BuildFacts.

(** ** The examples of the build script *)

Lemma build_papers_keeps_other_files_example :
  lookup_file (lit "/site/templates/chronicle.html")
    (files (build_papers (lit "/site") slash_join parse_empty_object plain_message
              NEWSPAPERS site_world))
  = lookup_file (lit "/site/templates/chronicle.html") (files site_world)
  /\ dirs (build_papers (lit "/site") slash_join parse_empty_object plain_message
             NEWSPAPERS site_world)
     = dirs site_world.
Proof.
  apply (build_papers_keeps_other_files (lit "/site") slash_join parse_empty_object
           plain_message NEWSPAPERS site_world (lit "/site/templates/chronicle.html")).
  intros p [<-|[<-|[<-|[]]]]; intros E; vm_compute in E; discriminate.
Defined.

Lemma build_paper_isolated_example :
  page (lit "/site") slash_join parse_empty_object
    (build_papers (lit "/site") slash_join parse_empty_object plain_message
       [standard_paper] site_world)
    chronicle_paper
  = page (lit "/site") slash_join parse_empty_object site_world chronicle_paper.
Proof.
  apply (build_paper_isolated (lit "/site") slash_join parse_empty_object
           plain_message [standard_paper] chronicle_paper site_world).
  intros p' q [<-|[]] [<-|[<-|[<-|[]]]]; intros E; vm_compute in E; discriminate.
Defined.


Lemma build_paper_failure_example :
  files (build_paper (lit "/site") slash_join parse_empty_object plain_message
           site_world standard_paper)
  = files site_world
  /\ console (build_paper (lit "/site") slash_join parse_empty_object plain_message
                site_world standard_paper)
     = [(Stderr, cross_mark ++ lit " standard.html: SyntaxError")].
Proof.
  pose proof (build_paper_failure (lit "/site") slash_join parse_empty_object
                plain_message site_world standard_paper SyntaxError eq_refl)
    as (F & C & _).
  split; [exact F | exact C].
Defined.

